(** * sampnn.message: message passing and attention pooling

    A shallow embedding of [src/sampnn/message.py].  Tensors of floating
    point numbers are idealised as lists of real numbers: a column tensor of
    shape (R,1) is a [list R], a matrix of shape (R,d) is a list of R rows.
    Index tensors are lists of natural numbers, so negative ids are excluded
    by the type.  Python exceptions are values of [exn], and every operation
    that can raise returns a [result]. *)

From Stdlib Require Import Reals Lra Lia.
From stdpp Require Import base list.

Local Open Scope R_scope.

Abbreviation vec := (list R).
Abbreviation matrix := (list (list R)).

(** ** Exceptions *)

Inductive exn : Type :=
  | AssertionError
  | IndexError
  | RuntimeError
  | ValueError
  | AttributeError.

Inductive result (A : Type) : Type :=
  | Ok (a : A)
  | Raise (e : exn).
Arguments Ok {A} a.
Arguments Raise {A} e.

#[global] Instance result_ret : MRet result := λ A a, Ok a.
#[global] Instance result_bind : MBind result := λ A B f m,
  match m with
  | Ok a => f a
  | Raise e => Raise e
  end.
#[global] Instance result_fmap : FMap result := λ A B f m,
  match m with
  | Ok a => Ok (f a)
  | Raise e => Raise e
  end.

(** ** Tensor primitives (torch) *)

Definition zeros (d : nat) : vec := replicate d 0.
Definition ones (d : nat) : vec := replicate d 1.

(** Elementwise sum and product of two rows of the same width. *)
Definition vadd (u v : vec) : vec := zip_with Rplus u v.
Definition vmul (u v : vec) : vec := zip_with Rmult u v.

(** A (R,1) column times a (R,d) matrix broadcasts the scalar over the row. *)
Definition scale (c : R) (v : vec) : vec := Rmult c <$> v.

(** [x.size(1)]; a matrix without rows yields no output row, whatever its
    width. *)
Definition width (x : matrix) : nat :=
  match x with
  | [] => 0%nat
  | row :: _ => length row
  end.

(** [t[index]]: advanced indexing of the leading dimension; an index past the
    end raises IndexError. *)
Fixpoint gather {A : Type} (t : list A) (index : list nat) : result (list A) :=
  match index with
  | [] => Ok []
  | i :: index' =>
      match t !! i with
      | Some a => rest ← gather t index'; Ok (a :: rest)
      | None => Raise IndexError
      end
  end.

(** Product of two column tensors with broadcasting of a singleton column. *)
Definition broadcast_mul (a b : list R) : result (list R) :=
  if (length a =? length b)%nat then Ok (zip_with Rmult a b)
  else match a, b with
       | [a0], _ => Ok (Rmult a0 <$> b)
       | _, [b0] => Ok ((λ v, v * b0) <$> a)
       | _, _ => Raise RuntimeError
       end.

(** ** Scatter reductions (torch_scatter, dim=0, no [out], no [dim_size]) *)

(** [maybe_dim_size]: [index.max().item() + 1 if index.numel() > 0 else 0]. *)
Definition dim_size (index : list nat) : nat :=
  match index with
  | [] => 0%nat
  | _ => S (max_list index)
  end.

(** The accumulation loop: [out[index[r]] = op(out[index[r]], src[r])] for
    r = 0, 1, ... *)
Definition scatter_into {A B : Type} (op : B → A → B)
    (out : list B) (src : list A) (index : list nat) : list B :=
  fold_left (λ acc p, alter (λ o, op o p.2) p.1 acc) (zip index src) out.

(** [gen] views the 1-d index along dim 0 of [src], which fails unless both
    have the same number of rows, and allocates [dim_size index] rows filled
    with [fill]. *)
Definition scatter {A B : Type} (op : B → A → B) (fill : B)
    (src : list A) (index : list nat) : result (list B) :=
  if (length index =? length src)%nat
  then Ok (scatter_into op (replicate (dim_size index) fill) src index)
  else Raise RuntimeError.

Definition scatter_add (src : list R) (index : list nat) : result (list R) :=
  scatter Rplus 0 src index.

Definition scatter_mul (src : list R) (index : list nat) : result (list R) :=
  scatter Rmult 1 src index.

(** The same reductions on a (R,d) matrix act on whole rows. *)
Definition scatter_add_rows (d : nat) (src : matrix) (index : list nat)
    : result matrix :=
  scatter vadd (zeros d) src index.

Definition scatter_mul_rows (d : nat) (src : matrix) (index : list nat)
    : result matrix :=
  scatter vmul (ones d) src index.

(** [scatter_max(...)[0]], the maximum of each segment as torch_scatter
    documents it: rows start at the least representable value and rows that
    were never written are reset to 0; with real numbers the untouched state
    is [None]. *)
Definition max_step (o : option R) (v : R) : option R :=
  Some (match o with
        | Some m => Rmax m v
        | None => v
        end).

Definition scatter_max (src : list R) (index : list nat) : result (list R) :=
  out ← scatter max_step None src index;
  Ok (default 0 <$> (out : list (option R))).

(** ** GlobalAttention *)

Definition eps : R := 1e-13.

Module GlobalAttention.

(** [gate_nn] is an arbitrary module; [gate_nn(x).view(-1,1)] is its output
    flattened to one column. *)
Record t : Type := { gate_nn : matrix → list R }.

(** [weights] is the (R,1) column the callers pass
    ([atom_weights[nbr_fea_idx,:]] needs a 2-d tensor); [x] is 2-d, so the
    [unsqueeze] branch is not taken. *)
Definition forward (self : t) (x : matrix) (index : list nat)
    (weights : list R) : result matrix :=
  let gate := gate_nn self x in
  if negb (length gate =? length x)%nat then Raise AssertionError else
  seg_max ← scatter_max gate index;
  seg_max_r ← gather seg_max index;
  let gate := zip_with Rminus gate seg_max_r in
  gate ← broadcast_mul weights (exp <$> gate);
  seg_sum ← scatter_add gate index;
  seg_sum_r ← gather seg_sum index;
  let gate := zip_with (λ g s, g / (s + eps)) gate seg_sum_r in
  scatter_add_rows (width x) (zip_with scale gate x) index.

End GlobalAttention.

(** ** Segments: the rows that carry a given segment id *)

#[global] Instance R_inhabited : Inhabited R := populate 0.

(** The entries of [l] whose segment id is [s], in row order. *)
Definition segment {A : Type} (s : nat) (index : list nat) (l : list A)
    : list A :=
  (filter (λ p, p.1 = s) (zip index l)).*2.

(** The row numbers whose segment id is [s]. *)
Definition members (s : nat) (index : list nat) : list nat :=
  filter (λ r, index !! r = Some s) (seq 0 (length index)).

Definition Rsum (l : list R) : R := foldr Rplus 0 l.

Definition vsum (d : nat) (rows : matrix) : vec := foldr vadd (zeros d) rows.

(** Largest element of a list (0 for the empty list). *)
Definition Rmax_list (l : list R) : R :=
  match l with
  | [] => 0
  | v :: l' => fold_left Rmax l' v
  end.

(** ** The values computed by GlobalAttention.forward, row by row *)

(** [gate - scatter_max(gate, index)[0][index]] *)
Definition stable_logit (g : list R) (index : list nat) : list R :=
  zip_with Rminus g ((λ i, Rmax_list (segment i index g)) <$> index).

(** [weights * gate.exp()] *)
Definition unnorm (g w : list R) (index : list nat) : list R :=
  zip_with Rmult w (exp <$> stable_logit g index).

(** [gate / (scatter_add(gate, index)[index] + 1e-13)] *)
Definition coeff (g w : list R) (index : list nat) : list R :=
  zip_with (λ u s, u / (s + eps)) (unnorm g w index)
    ((λ i, Rsum (segment i index (unnorm g w index))) <$> index).

(** The same values for one segment, from that segment's rows alone: [G],
    [W] and [X] are the gate logits, weights and feature rows of its
    members. *)
Definition segment_unnorm (G W : list R) : list R :=
  zip_with (λ w g, w * exp (g - Rmax_list G)) W G.

Definition segment_coeff (G W : list R) : list R :=
  (λ u, u / (Rsum (segment_unnorm G W) + eps)) <$> segment_unnorm G W.

Definition pool_segment (d : nat) (G W : list R) (X : matrix) : vec :=
  vsum d (zip_with scale (segment_coeff G W) X).

(** ** WeightedMeanPooling *)

(** A (R,1) column times a (R,d) matrix, with broadcasting of a single row. *)
Definition broadcast_scale (a : list R) (x : matrix) : result matrix :=
  if (length a =? length x)%nat then Ok (zip_with scale a x)
  else match a, x with
       | [a0], _ => Ok (scale a0 <$> x)
       | _, [row] => Ok ((λ c, scale c row) <$> a)
       | _, _ => Raise RuntimeError
       end.

Module WeightedMeanPooling.

(** [weights] is a column, as after [weights.unsqueeze(-1)]. *)
Definition forward (x : matrix) (index : list nat) (weights : list R)
    : result matrix :=
  x ← broadcast_scale weights x;
  num ← scatter_mul_rows (width x) x index;
  den ← scatter_mul weights index;
  let weighted_mean := zip_with (λ (row : vec) c, (λ v, v / c) <$> row) num den in
  Ok weighted_mean.

End WeightedMeanPooling.

(** ** Layers of torch.nn used by the message layer *)

(** [nn.Sigmoid] and [nn.ELU] (alpha = 1), elementwise. *)
Definition sigmoid (v : R) : R := 1 / (1 + exp (- v)).
Definition elu (v : R) : R := Rmax 0 v + Rmin 0 (exp v - 1).

Definition dot (u v : vec) : R := Rsum (zip_with Rmult u v).

Definition has_width (d : nat) (x : matrix) : bool :=
  forallb (λ row : vec, (length row =? d)%nat) x.

Module Linear.

(** [weight] has [out_features] rows of [in_features] entries. *)
Record t : Type := {
  in_features : nat;
  out_features : nat;
  weight : matrix;
  bias : vec
}.

Definition apply_row (self : t) (row : vec) : vec :=
  zip_with (λ w_row b, dot row w_row + b) (weight self) (bias self).

(** [input @ weight.T + bias]; a row of the wrong width is a RuntimeError. *)
Definition forward (self : t) (input : matrix) : result matrix :=
  if has_width (in_features self) input
  then Ok (apply_row self <$> input)
  else Raise RuntimeError.

End Linear.

Module BatchNorm1d.

(** The affine parameters, the running statistics and the mode flag of the
    module.  A training-mode call also moves the running statistics towards
    the batch statistics; that update does not enter the value the call
    returns and is left out. *)
Record t : Type := {
  num_features : nat;
  bn_eps : R;
  weight : vec;
  bias : vec;
  running_mean : vec;
  running_var : vec;
  training : bool
}.

Definition column (k : nat) (input : matrix) : list R :=
  (λ row : vec, row !!! k) <$> input.

Definition mean (l : list R) : R := Rsum l / INR (length l).

(** The biased variance, as used to normalise the batch. *)
Definition var (l : list R) : R :=
  Rsum ((λ v, (v - mean l) ^ 2) <$> l) / INR (length l).

Definition normalize_row (self : t) (mu sigma2 : vec) (row : vec) : vec :=
  imap (λ k v, (v - mu !!! k) / sqrt (sigma2 !!! k + bn_eps self)
                 * weight self !!! k + bias self !!! k) row.

Definition batch_mean (self : t) (input : matrix) : vec :=
  (λ k, mean (column k input)) <$> seq 0 (num_features self).

Definition batch_var (self : t) (input : matrix) : vec :=
  (λ k, var (column k input)) <$> seq 0 (num_features self).

(** Training mode refuses a batch of exactly one row (ValueError) and
    normalises with the statistics of the batch; evaluation mode normalises
    with the running statistics. *)
Definition forward (self : t) (input : matrix) : result matrix :=
  if training self then
    if (length input =? 1)%nat then Raise ValueError
    else if has_width (num_features self) input
    then Ok (normalize_row self (batch_mean self input) (batch_var self input)
               <$> input)
    else Raise RuntimeError
  else
    if has_width (num_features self) input
    then Ok (normalize_row self (running_mean self) (running_var self) <$> input)
    else Raise RuntimeError.

End BatchNorm1d.

(** [torch.cat([a, b, c], dim=1)]: the three matrices need the same number of
    rows. *)
Definition cat3 (a b c : matrix) : result matrix :=
  if ((length a =? length b) && (length b =? length c))%nat
  then Ok (zip_with app a (zip_with app b c))
  else Raise RuntimeError.

(** ** MessageLayer *)

Module MessageLayer.

Record t : Type := {
  atom_fea_len : nat;
  nbr_fea_len : nat;
  filter_msg : Linear.t;
  filter_bn : BatchNorm1d.t;
  core_msg : Linear.t;
  core_bn : BatchNorm1d.t;
  pooling : GlobalAttention.t
}.

(** The shapes [__init__] gives to the sub-modules. *)
Definition shaped (self : t) : Prop :=
  Linear.in_features (filter_msg self) = (2 * atom_fea_len self + nbr_fea_len self)%nat ∧
  Linear.out_features (filter_msg self) = atom_fea_len self ∧
  BatchNorm1d.num_features (filter_bn self) = atom_fea_len self ∧
  Linear.in_features (core_msg self) = (2 * atom_fea_len self + nbr_fea_len self)%nat ∧
  Linear.out_features (core_msg self) = atom_fea_len self ∧
  BatchNorm1d.num_features (core_bn self) = atom_fea_len self.

(** [atom_weights] is the (N,1) column of per-atom weights. *)
Definition forward (self : t) (atom_weights : list R)
    (atom_in_fea bond_nbr_fea : matrix) (self_fea_idx nbr_fea_idx : list nat)
    : result matrix :=
  atom_nbr_weights ← gather atom_weights nbr_fea_idx;
  atom_nbr_fea ← gather atom_in_fea nbr_fea_idx;
  atom_self_fea ← gather atom_in_fea self_fea_idx;
  total_fea ← cat3 atom_self_fea atom_nbr_fea bond_nbr_fea;
  filter_fea ← Linear.forward (filter_msg self) total_fea;
  filter_fea ← BatchNorm1d.forward (filter_bn self) filter_fea;
  let filter_fea := (λ row : vec, sigmoid <$> row) <$> filter_fea in
  core_fea ← Linear.forward (core_msg self) total_fea;
  core_fea ← BatchNorm1d.forward (core_bn self) core_fea;
  let core_fea := (λ row : vec, elu <$> row) <$> core_fea in
  let nbr_message := zip_with vmul filter_fea core_fea in
  GlobalAttention.forward (pooling self) nbr_message self_fea_idx atom_nbr_weights.

End MessageLayer.

(** ** CompositionNet *)

Module CompositionNet.

(** An externally supplied module: its truth value ([False] only for an empty
    container) and what calling it does. *)
Record module : Type := {
  truthy : bool;
  call : matrix → result matrix
}.

(** [output_nn] is the instance attribute of that name: [None] when it was
    never assigned. *)
Record t : Type := {
  embedding : Linear.t;
  graphs : list MessageLayer.t;
  pooling : GlobalAttention.t;
  output_nn : option module
}.

(** The constructor.  The freshly initialised parameters of the embedding and
    of the [n_graph] message layers are the arguments [embedding0] and
    [layers0]; every layer receives its own copy of [atom_gate].  The
    attribute [output_nn] is assigned only under [if output_nn:]. *)
Definition init (embedding0 : Linear.t)
    (layers0 : list (Linear.t * BatchNorm1d.t * Linear.t * BatchNorm1d.t))
    (nbr_fea_len : nat) (atom_gate crys_gate : GlobalAttention.t)
    (atom_fea_len : nat) (output_nn : option module) : t :=
  {| embedding := embedding0;
     graphs := (λ p, match p with
                     | (fm, fb, cm, cb) =>
                         {| MessageLayer.atom_fea_len := atom_fea_len;
                            MessageLayer.nbr_fea_len := nbr_fea_len;
                            MessageLayer.filter_msg := fm;
                            MessageLayer.filter_bn := fb;
                            MessageLayer.core_msg := cm;
                            MessageLayer.core_bn := cb;
                            MessageLayer.pooling := atom_gate |}
                     end) <$> layers0;
     pooling := crys_gate;
     output_nn := match output_nn with
                  | Some m => if truthy m then Some m else None
                  | None => None
                  end |}.

(** [self.output_nn]: reading an attribute that was never assigned raises
    AttributeError. *)
Definition getattr_output_nn (self : t) : result module :=
  match output_nn self with
  | Some m => Ok m
  | None => Raise AttributeError
  end.

(** The loop [for graph_func in self.graphs]. *)
Fixpoint message_passing (layers : list MessageLayer.t) (atom_weights : list R)
    (atom_fea nbr_fea : matrix) (self_fea_idx nbr_fea_idx : list nat)
    : result matrix :=
  match layers with
  | [] => Ok atom_fea
  | graph_func :: layers' =>
      atom_fea ← MessageLayer.forward graph_func atom_weights atom_fea nbr_fea
                   self_fea_idx nbr_fea_idx;
      message_passing layers' atom_weights atom_fea nbr_fea self_fea_idx nbr_fea_idx
  end.

(** The crystal features before the output head (lines 184-191). *)
Definition crystal_features (self : t) (atom_weights : list R)
    (orig_atom_fea nbr_fea : matrix)
    (self_fea_idx nbr_fea_idx crystal_atom_idx : list nat) : result matrix :=
  atom_fea ← Linear.forward (embedding self) orig_atom_fea;
  atom_fea ← message_passing (graphs self) atom_weights atom_fea nbr_fea
               self_fea_idx nbr_fea_idx;
  GlobalAttention.forward (pooling self) atom_fea crystal_atom_idx atom_weights.

Definition forward (self : t) (atom_weights : list R)
    (orig_atom_fea nbr_fea : matrix)
    (self_fea_idx nbr_fea_idx crystal_atom_idx : list nat) : result matrix :=
  crys_fea ← crystal_features self atom_weights orig_atom_fea nbr_fea
               self_fea_idx nbr_fea_idx crystal_atom_idx;
  head ← getattr_output_nn self;
  if truthy head then call head crys_fea else Ok crys_fea.

End CompositionNet.

(** ** The pooling formula in the words of the specification

    Rows are addressed by their number [r]; [g] holds the gate logits, [w]
    the weights, [x] the feature rows and [index] the segment ids. *)

Section spec_formula.
Variables (g w : list R) (x : matrix) (index : list nat).

(** max of g[r'] over the rows r' with index[r'] = s *)
Definition spec_logit_max (s : nat) : R :=
  Rmax_list ((λ r', g !!! r') <$> members s index).

(** weights[r] * exp(g[r] - segment max) *)
Definition spec_unnorm (r : nat) : R :=
  w !!! r * exp (g !!! r - spec_logit_max (index !!! r)).

(** unnorm[r] / (sum of unnorm[r'] over index[r'] = index[r], plus 1e-13) *)
Definition spec_coeff (r : nat) : R :=
  spec_unnorm r / (Rsum (spec_unnorm <$> members (index !!! r) index) + eps).

(** sum of coeff[r] * x[r] over the rows r with index[r] = s *)
Definition spec_output (s : nat) : vec :=
  vsum (width x) ((λ r, scale (spec_coeff r) (x !!! r)) <$> members s index).

End spec_formula.

(** ** Relating two runs *)

(** Two matrices with the same number of rows and the same row widths. *)
Definition same_shape (X X' : matrix) : Prop :=
  Forall2 (λ r r' : vec, length r = length r') X X'.

(** Same shape, and equal on the rows selected by [P]. *)
Definition agree_on (P : nat → Prop) (X X' : matrix) : Prop :=
  same_shape X X' ∧ ∀ j, P j → X !! j = X' !! j.

(** A gate network that maps each row to its logit independently of the other
    rows of the batch. *)
Definition rowwise_gate (self : GlobalAttention.t) : Prop :=
  ∃ g : vec → R, ∀ X, GlobalAttention.gate_nn self X = g <$> X.

(** An output transform that acts row by row. *)
Definition rowwise_head (m : CompositionNet.module) : Prop :=
  ∃ h : vec → vec, ∀ X, CompositionNet.call m X = Ok (h <$> X).

(** Both normalisation steps of a layer use their running statistics. *)
Definition eval_mode (layer : MessageLayer.t) : Prop :=
  BatchNorm1d.training (MessageLayer.filter_bn layer) = false ∧
  BatchNorm1d.training (MessageLayer.core_bn layer) = false.

(** Row [c] of a result: [None] when the call raised. *)
Definition row_of (c : nat) (r : result matrix) : option (option vec) :=
  match r with
  | Ok out => Some (out !! c)
  | Raise _ => None
  end.

(** ** Further notions used to state properties *)

(** The weight column as [weights * gate.exp()] sees it against [n] gate rows:
    itself when it has [n] rows, its single row repeated when it has one row,
    and no value when the product (or the scatter that follows it) fails. *)
Definition expand_weights (n : nat) (w : list R) : option (list R) :=
  if (length w =? n)%nat then Some w
  else match w with
       | [w0] => Some (replicate n w0)
       | _ => None
       end.

(** A layer whose parameters have the shapes [__init__] gives them, for the
    widths [afl] (atom features) and [nfl] (bond features), and whose gate
    network returns one logit per row. *)
Definition layer_built (afl nfl : nat) (layer : MessageLayer.t) : Prop :=
  MessageLayer.atom_fea_len layer = afl ∧
  MessageLayer.nbr_fea_len layer = nfl ∧
  MessageLayer.shaped layer ∧
  length (Linear.weight (MessageLayer.filter_msg layer)) = afl ∧
  length (Linear.bias (MessageLayer.filter_msg layer)) = afl ∧
  length (Linear.weight (MessageLayer.core_msg layer)) = afl ∧
  length (Linear.bias (MessageLayer.core_msg layer)) = afl ∧
  ∀ m, length (GlobalAttention.gate_nn (MessageLayer.pooling layer) m) = length m.
(** ** The primitives on small inputs *)

Example dim_size_example : dim_size [0; 2; 0]%nat = 3%nat.
Proof. reflexivity. Qed.

Example gather_example : gather [10; 20; 30] [2; 0]%nat = Ok [30; 10].
Proof. reflexivity. Qed.

Example gather_out_of_range : gather [10; 20; 30] [2; 3]%nat = Raise IndexError.
Proof. reflexivity. Qed.

Example scatter_add_example :
  scatter_add [10; 20; 30] [0; 2; 0]%nat = Ok [0 + 10 + 30; 0; 0 + 20].
Proof. reflexivity. Qed.

Example scatter_max_example :
  scatter_max [10; 20; 30] [0; 2; 0]%nat = Ok [Rmax 10 30; 0; 20].
Proof. reflexivity. Qed.

Example scatter_row_mismatch :
  scatter_add [10; 20; 30] [0; 2]%nat = Raise RuntimeError.
Proof. reflexivity. Qed.

Example forward_gate_rows_mismatch :
  GlobalAttention.forward {| GlobalAttention.gate_nn := λ _, [0] |}
    [[1]; [2]] [0; 0]%nat [1; 1] = Raise AssertionError.
Proof. reflexivity. Qed.

(** *** Facts about segments *)

Lemma segment_nil_l {A} s (l : list A) : segment s [] l = [].
Proof. reflexivity. Qed.

Lemma segment_cons {A} s i index a (l : list A) :
  segment s (i :: index) (a :: l) =
  if decide (i = s) then a :: segment s index l else segment s index l.
Proof.
  unfold segment. simpl. rewrite filter_cons. simpl.
  destruct (decide (i = s)); reflexivity.
Qed.

Lemma filter_fmap_list {A B} (f : A → B) (P : B → Prop)
    `{!∀ y, Decision (P y)} (l : list A) :
  filter P (f <$> l) = f <$> filter (λ a, P (f a)) l.
Proof.
  induction l as [|a l IH]; [reflexivity|].
  rewrite fmap_cons, !filter_cons, IH.
  destruct (decide (P (f a))); reflexivity.
Qed.

Lemma members_cons s i index :
  members s (i :: index) =
  (if decide (i = s) then [0%nat] else []) ++ (S <$> members s index).
Proof.
  unfold members. simpl. rewrite filter_cons. simpl.
  rewrite <- fmap_S_seq, filter_fmap_list. simpl.
  assert (Hi : Some i = Some s ↔ i = s) by (split; congruence).
  destruct (decide (Some i = Some s)), (decide (i = s)); try tauto; reflexivity.
Qed.

Lemma elem_of_members s index r : r ∈ members s index ↔ index !! r = Some s.
Proof.
  unfold members. rewrite list_elem_of_filter, elem_of_seq.
  split; [tauto|]. intros H. split; [done|].
  apply lookup_lt_Some in H. lia.
Qed.

Lemma segment_members `{Inhabited A} s index (l : list A) :
  length l = length index →
  segment s index l = (λ r, l !!! r) <$> members s index.
Proof.
  revert l. induction index as [|i index IH]; intros [|a l] Hlen;
    simpl in Hlen; try discriminate; [reflexivity|].
  rewrite segment_cons, members_cons, fmap_app, <- list_fmap_compose.
  rewrite IH by lia.
  destruct (decide (i = s)); reflexivity.
Qed.

Lemma segment_fmap {A B} (f : A → B) s index (l : list A) :
  segment s index (f <$> l) = f <$> segment s index l.
Proof.
  revert l. induction index as [|i index IH]; intros [|a l]; try reflexivity.
  rewrite fmap_cons, !segment_cons, IH. destruct (decide (i = s)); reflexivity.
Qed.

Lemma segment_zip_with {A B C} (f : A → B → C) s index
    (l : list A) (k : list B) :
  length l = length index → length k = length index →
  segment s index (zip_with f l k) =
  zip_with f (segment s index l) (segment s index k).
Proof.
  revert l k. induction index as [|i index IH]; intros [|a l] [|b k] Hl Hk;
    simpl in *; try discriminate; [reflexivity|].
  rewrite !segment_cons, IH by lia. destruct (decide (i = s)); reflexivity.
Qed.

Lemma length_segment {A B} s index (l : list A) (k : list B) :
  length l = length index → length k = length index →
  length (segment s index l) = length (segment s index k).
Proof.
  revert l k. induction index as [|i index IH]; intros [|a l] [|b k] Hl Hk;
    simpl in *; try discriminate; [reflexivity|].
  rewrite !segment_cons. destruct (decide (i = s)); simpl; rewrite (IH l k); lia.
Qed.

(** The segment of a list that is computed from the segment id alone. *)
Lemma segment_index_fmap {A} (f : nat → A) s index :
  segment s index (f <$> index) = replicate (length (members s index)) (f s).
Proof.
  induction index as [|i index IH]; [reflexivity|].
  rewrite fmap_cons, segment_cons, members_cons, length_app, length_fmap, IH.
  destruct (decide (i = s)); subst; reflexivity.
Qed.

(** Two lists that agree on the rows of a segment have the same segment. *)
Lemma segment_ext {A} s index (l k : list A) :
  length l = length index → length k = length index →
  (∀ r, index !! r = Some s → l !! r = k !! r) →
  segment s index l = segment s index k.
Proof.
  revert l k. induction index as [|i index IH]; intros [|a l] [|b k] Hl Hk Hagree;
    simpl in *; try discriminate; [reflexivity|].
  rewrite !segment_cons, (IH l k); try lia.
  - destruct (decide (i = s)); [|reflexivity]. subst.
    specialize (Hagree 0%nat eq_refl). simpl in Hagree. congruence.
  - intros r Hr. apply (Hagree (S r)). exact Hr.
Qed.

Lemma segment_empty {A} s index (l : list A) :
  s ∉ index → segment s index l = [].
Proof.
  revert l. induction index as [|i index IH]; intros [|a l] Hs; try reflexivity.
  rewrite segment_cons. rewrite not_elem_of_cons in Hs. destruct Hs as [Hne Hs].
  destruct (decide (i = s)); [congruence|]. by apply IH.
Qed.

(** *** Facts about sums and maxima *)

Lemma Rsum_cons v l : Rsum (v :: l) = v + Rsum l.
Proof. reflexivity. Qed.

Lemma fold_left_Rplus l a : fold_left Rplus l a = a + Rsum l.
Proof.
  revert a. induction l as [|v l IH]; intros a; [unfold Rsum; simpl; lra|].
  change (fold_left Rplus (v :: l) a) with (fold_left Rplus l (a + v)).
  rewrite IH, Rsum_cons. lra.
Qed.

Lemma vadd_comm u v : vadd u v = vadd v u.
Proof.
  unfold vadd. revert v. induction u as [|a u IH]; intros [|b v]; simpl;
    try reflexivity.
  rewrite IH. f_equal. lra.
Qed.

Lemma vadd_assoc u v w : vadd u (vadd v w) = vadd (vadd u v) w.
Proof.
  unfold vadd. revert v w. induction u as [|a u IH]; intros [|b v] [|c w]; simpl;
    try reflexivity.
  rewrite IH. f_equal. lra.
Qed.

Lemma fold_left_vadd d rows : fold_left vadd rows (zeros d) = vsum d rows.
Proof.
  unfold vsum. apply fold_symmetric.
  - apply vadd_assoc.
  - intros y. apply vadd_comm.
Qed.

Lemma fold_left_max_step l o :
  fold_left max_step l o =
  match o, l with
  | None, [] => None
  | None, v :: l' => Some (fold_left Rmax l' v)
  | Some m, _ => Some (fold_left Rmax l m)
  end.
Proof.
  revert o. induction l as [|v l IH]; intros o; simpl.
  - destruct o; reflexivity.
  - rewrite IH. destruct o; reflexivity.
Qed.

Lemma fold_left_max_step_None l :
  default 0 (fold_left max_step l None) = Rmax_list l.
Proof. rewrite fold_left_max_step. destruct l; reflexivity. Qed.

Lemma Rsum_fmap_div (k : R) l : Rsum ((λ u, u / k) <$> l) = Rsum l / k.
Proof.
  induction l as [|v l IH]; [unfold Rsum; simpl; lra|].
  rewrite fmap_cons, !Rsum_cons, IH. lra.
Qed.

Lemma Rsum_nonneg l : Forall (λ v, 0 <= v) l → 0 <= Rsum l.
Proof.
  induction 1 as [|v l Hv _ IH]; [unfold Rsum; simpl; lra|].
  rewrite Rsum_cons. lra.
Qed.

(** *** What a scatter computes *)

Lemma scatter_into_lookup {A B} (op : B → A → B) out src index s :
  scatter_into op out src index !! s =
  (λ o, fold_left op (segment s index src) o) <$> out !! s.
Proof.
  revert out src. induction index as [|i index IH]; intros out [|a src];
    try (unfold scatter_into; simpl; by destruct (out !! s)).
  rewrite segment_cons. unfold scatter_into in *. simpl. rewrite IH.
  rewrite list_lookup_alter.
  destruct (decide (i = s)) as [->|Hne].
  - destruct (out !! s); reflexivity.
  - reflexivity.
Qed.

Lemma scatter_ok {A B} (op : B → A → B) fill src index :
  length index = length src →
  scatter op fill src index =
  Ok ((λ s, fold_left op (segment s index src) fill) <$> seq 0 (dim_size index)).
Proof.
  intros Hlen. unfold scatter. rewrite Hlen, Nat.eqb_refl. f_equal.
  apply list_eq. intros s.
  rewrite scatter_into_lookup, list_lookup_fmap.
  destruct (decide (s < dim_size index)%nat) as [Hlt|Hge].
  - rewrite lookup_replicate_2, lookup_seq_lt by done. reflexivity.
  - rewrite lookup_seq_ge by lia.
    rewrite (proj1 (lookup_replicate_None _ _ _)) by lia. reflexivity.
Qed.

Lemma scatter_length_mismatch {A B} (op : B → A → B) fill src index :
  length index ≠ length src → scatter op fill src index = Raise RuntimeError.
Proof.
  intros Hlen. unfold scatter.
  destruct (Nat.eqb_spec (length index) (length src)); [done|reflexivity].
Qed.

Lemma scatter_add_ok src index :
  length index = length src →
  scatter_add src index =
  Ok ((λ s, Rsum (segment s index src)) <$> seq 0 (dim_size index)).
Proof.
  intros Hlen. unfold scatter_add. rewrite scatter_ok by done. f_equal.
  apply list_fmap_ext. intros _ s _. rewrite fold_left_Rplus. lra.
Qed.

Lemma scatter_add_rows_ok d src index :
  length index = length src →
  scatter_add_rows d src index =
  Ok ((λ s, vsum d (segment s index src)) <$> seq 0 (dim_size index)).
Proof.
  intros Hlen. unfold scatter_add_rows. rewrite scatter_ok by done. f_equal.
  apply list_fmap_ext. intros _ s _. apply fold_left_vadd.
Qed.

Lemma scatter_max_ok src index :
  length index = length src →
  scatter_max src index =
  Ok ((λ s, Rmax_list (segment s index src)) <$> seq 0 (dim_size index)).
Proof.
  intros Hlen. unfold scatter_max. rewrite scatter_ok by done. simpl.
  f_equal. rewrite <- list_fmap_compose.
  apply list_fmap_ext. intros _ s _. apply fold_left_max_step_None.
Qed.

(** *** Gathering back *)

Lemma index_lt_dim_size index i : i ∈ index → (i < dim_size index)%nat.
Proof.
  intros Hi. destruct index as [|j index]; [by apply elem_of_nil in Hi|].
  unfold dim_size. apply max_list_elem_of_le in Hi. lia.
Qed.

Lemma gather_fmap_seq {A} (f : nat → A) n index :
  Forall (λ i, (i < n)%nat) index →
  gather (f <$> seq 0 n) index = Ok (f <$> index).
Proof.
  induction 1 as [|i index Hi _ IH]; [reflexivity|].
  simpl. rewrite list_lookup_fmap, lookup_seq_lt by done. simpl.
  rewrite IH. reflexivity.
Qed.

Lemma gather_scattered {A} (f : nat → A) index :
  gather (f <$> seq 0 (dim_size index)) index = Ok (f <$> index).
Proof.
  apply gather_fmap_seq, Forall_forall. intros i Hi.
  by apply index_lt_dim_size.
Qed.

Lemma gather_ok {A} (t : list A) index :
  Forall (λ i, (i < length t)%nat) index →
  ∃ rows, gather t index = Ok rows ∧ length rows = length index ∧
          ∀ j i, index !! j = Some i → rows !! j = t !! i.
Proof.
  induction 1 as [|i index Hi _ (rows & Hg & Hlen & Hrows)].
  - exists []. split_and!; [done..|]. intros j i Hj. done.
  - destruct (lookup_lt_is_Some_2 t i Hi) as [a Ha].
    exists (a :: rows). simpl. rewrite Ha, Hg. split_and!; [done|simpl; lia|].
    intros [|j] i' Hj; simpl in *; [congruence|]. by apply Hrows.
Qed.

Lemma bind_Ok {A B} (a : A) (f : A → result B) : Ok a ≫= f = f a.
Proof. reflexivity. Qed.

Lemma bind_Raise {A B} e (f : A → result B) : Raise e ≫= f = Raise e.
Proof. reflexivity. Qed.

Lemma bind_Ok_inv {A B} (m : result A) (f : A → result B) b :
  m ≫= f = Ok b → ∃ a, m = Ok a ∧ f a = Ok b.
Proof. destruct m as [a|e]; [by exists a|discriminate]. Qed.

Lemma broadcast_mul_same a b :
  length a = length b → broadcast_mul a b = Ok (zip_with Rmult a b).
Proof. intros Hlen. unfold broadcast_mul. by rewrite Hlen, Nat.eqb_refl. Qed.

Lemma lookup_total_zip_with `{Inhabited A, Inhabited B, Inhabited D}
    (f : A → B → D) l k i :
  (i < length l)%nat → (i < length k)%nat →
  zip_with f l k !!! i = f (l !!! i) (k !!! i).
Proof.
  intros Hl Hk.
  destruct (lookup_lt_is_Some_2 l i Hl) as [a Ha].
  destruct (lookup_lt_is_Some_2 k i Hk) as [b Hb].
  rewrite (list_lookup_total_correct l i a Ha).
  rewrite (list_lookup_total_correct k i b Hb).
  apply list_lookup_total_correct.
  rewrite lookup_zip_with, Ha, Hb. reflexivity.
Qed.

(** ** The values computed by GlobalAttention.forward, row by row *)

Lemma length_stable_logit g index :
  length g = length index → length (stable_logit g index) = length index.
Proof.
  intros Hg. unfold stable_logit.
  rewrite length_zip_with_l_eq; rewrite ?length_fmap; done.
Qed.

Lemma length_unnorm g w index :
  length g = length index → length w = length index →
  length (unnorm g w index) = length index.
Proof.
  intros Hg Hw. unfold unnorm.
  rewrite length_zip_with_l_eq; rewrite ?length_fmap, ?length_stable_logit; done.
Qed.

Lemma length_coeff g w index :
  length g = length index → length w = length index →
  length (coeff g w index) = length index.
Proof.
  intros Hg Hw. unfold coeff.
  rewrite length_zip_with_l_eq; rewrite ?length_fmap, ?length_unnorm; done.
Qed.

Lemma forward_rows self x index weights :
  length index = length x →
  length weights = length x →
  length (GlobalAttention.gate_nn self x) = length x →
  GlobalAttention.forward self x index weights =
  Ok ((λ s, vsum (width x)
              (segment s index
                 (zip_with scale (coeff (GlobalAttention.gate_nn self x) weights index) x)))
        <$> seq 0 (dim_size index)).
Proof.
  intros Hi Hw Hg. unfold GlobalAttention.forward.
  rewrite Hg, Nat.eqb_refl. cbn [negb].
  rewrite scatter_max_ok, bind_Ok by congruence.
  rewrite gather_scattered, bind_Ok.
  fold (stable_logit (GlobalAttention.gate_nn self x) index).
  rewrite broadcast_mul_same, bind_Ok
    by (rewrite length_fmap, length_stable_logit; congruence).
  fold (unnorm (GlobalAttention.gate_nn self x) weights index).
  rewrite scatter_add_ok, bind_Ok by (rewrite length_unnorm; congruence).
  rewrite gather_scattered, bind_Ok.
  fold (coeff (GlobalAttention.gate_nn self x) weights index).
  apply scatter_add_rows_ok.
  rewrite length_zip_with_l_eq; rewrite ?length_coeff; congruence.
Qed.

(** ** The pooled row of one segment, from that segment's rows alone *)

Lemma length_segment_members {A} s index (l : list A) :
  length l = length index →
  length (segment s index l) = length (members s index).
Proof.
  revert l. induction index as [|i index IH]; intros [|a l] Hl;
    simpl in *; try discriminate; [reflexivity|].
  rewrite segment_cons, members_cons, length_app, length_fmap.
  destruct (decide (i = s)); simpl; rewrite IH; lia.
Qed.

Lemma segment_of_unnorm g w index s :
  length g = length index → length w = length index →
  segment s index (unnorm g w index) =
  segment_unnorm (segment s index g) (segment s index w).
Proof.
  intros Hg Hw. unfold unnorm, stable_logit, segment_unnorm.
  rewrite segment_zip_with;
    [|done|rewrite length_fmap; apply length_stable_logit; done].
  rewrite segment_fmap, segment_zip_with; [|done|by rewrite length_fmap].
  rewrite segment_index_fmap.
  rewrite zip_with_replicate_r_eq by (by apply length_segment_members).
  rewrite zip_with_fmap_r, zip_with_fmap_r. reflexivity.
Qed.

Lemma segment_of_coeff g w index s :
  length g = length index → length w = length index →
  segment s index (coeff g w index) =
  segment_coeff (segment s index g) (segment s index w).
Proof.
  intros Hg Hw. unfold coeff, segment_coeff.
  rewrite segment_zip_with;
    [|by apply length_unnorm|by rewrite length_fmap].
  rewrite segment_index_fmap.
  rewrite zip_with_replicate_r_eq
    by (apply length_segment_members; by apply length_unnorm).
  rewrite !segment_of_unnorm by done. reflexivity.
Qed.

Lemma segment_of_pooled d g w x index s :
  length g = length index → length w = length index → length x = length index →
  vsum d (segment s index (zip_with scale (coeff g w index) x)) =
  pool_segment d (segment s index g) (segment s index w) (segment s index x).
Proof.
  intros Hg Hw Hx. unfold pool_segment.
  rewrite segment_zip_with; [|by apply length_coeff|done].
  rewrite segment_of_coeff by done. reflexivity.
Qed.

Lemma forward_segments self x index weights :
  length index = length x →
  length weights = length x →
  length (GlobalAttention.gate_nn self x) = length x →
  GlobalAttention.forward self x index weights =
  Ok ((λ s, pool_segment (width x)
              (segment s index (GlobalAttention.gate_nn self x))
              (segment s index weights) (segment s index x))
        <$> seq 0 (dim_size index)).
Proof.
  intros Hi Hw Hg. rewrite forward_rows by done. f_equal.
  apply list_fmap_ext. intros _ s _. apply segment_of_pooled; congruence.
Qed.

(** The rows of the result, one by one. *)
Lemma forward_lookup self x index weights s :
  length index = length x →
  length weights = length x →
  length (GlobalAttention.gate_nn self x) = length x →
  ∃ out, GlobalAttention.forward self x index weights = Ok out ∧
         length out = dim_size index ∧
         out !! s =
           if decide (s < dim_size index)%nat
           then Some (pool_segment (width x)
                        (segment s index (GlobalAttention.gate_nn self x))
                        (segment s index weights) (segment s index x))
           else None.
Proof.
  intros Hi Hw Hg. eexists. split; [by apply forward_segments|].
  split; [by rewrite length_fmap, length_seq|].
  rewrite list_lookup_fmap. destruct (decide (s < dim_size index)%nat).
  - by rewrite lookup_seq_lt.
  - by rewrite lookup_seq_ge by lia.
Qed.

(** ** The maximum of a segment *)

Lemma fold_left_Rmax_ge l a : a <= fold_left Rmax l a.
Proof.
  revert a. induction l as [|v l IH]; intros a; simpl; [lra|].
  etransitivity; [apply (Rmax_l a v)|apply IH].
Qed.

Lemma fold_left_Rmax_upper l a v : v ∈ l → v <= fold_left Rmax l a.
Proof.
  revert a. induction l as [|u l IH]; intros a Hv; [by apply elem_of_nil in Hv|].
  apply elem_of_cons in Hv as [->|Hv]; simpl.
  - etransitivity; [apply (Rmax_r a u)|apply fold_left_Rmax_ge].
  - by apply IH.
Qed.

Lemma fold_left_Rmax_attained l a :
  fold_left Rmax l a = a ∨ fold_left Rmax l a ∈ l.
Proof.
  revert a. induction l as [|u l IH]; intros a; simpl; [by left|].
  destruct (IH (Rmax a u)) as [Heq|Hin].
  - rewrite Heq. unfold Rmax. destruct (Rle_dec a u); [right; left|by left].
  - right. by right.
Qed.

(** [Rmax_list] is the greatest element of a non-empty list. *)
Lemma Rmax_list_upper l v : v ∈ l → v <= Rmax_list l.
Proof.
  destruct l as [|u l]; intros Hv; [by apply elem_of_nil in Hv|].
  apply elem_of_cons in Hv as [->|Hv]; simpl.
  - apply fold_left_Rmax_ge.
  - by apply fold_left_Rmax_upper.
Qed.

Lemma Rmax_list_attained l : l ≠ [] → Rmax_list l ∈ l.
Proof.
  destruct l as [|u l]; [done|]. intros _. simpl.
  destruct (fold_left_Rmax_attained l u) as [->|Hin]; [left|by right].
Qed.

Lemma Rmax_shift a b c : Rmax (a + c) (b + c) = Rmax a b + c.
Proof.
  unfold Rmax. destruct (Rle_dec (a + c) (b + c)), (Rle_dec a b); lra.
Qed.

Lemma fold_left_Rmax_shift c l a :
  fold_left Rmax ((λ v, v + c) <$> l) (a + c) = fold_left Rmax l a + c.
Proof.
  revert a. induction l as [|u l IH]; intros a; [reflexivity|].
  rewrite fmap_cons. simpl. rewrite Rmax_shift. apply IH.
Qed.

Lemma Rmax_list_shift c l :
  l ≠ [] → Rmax_list ((λ v, v + c) <$> l) = Rmax_list l + c.
Proof.
  destruct l as [|u l]; [done|]. intros _. rewrite fmap_cons. simpl.
  apply fold_left_Rmax_shift.
Qed.

(** ** GlobalAttention.forward against the specification's formula *)

Lemma members_index_total s index r :
  r ∈ members s index → index !!! r = s.
Proof.
  intros Hr. apply elem_of_members in Hr.
  by apply list_lookup_total_correct.
Qed.

Lemma fmap_ext_elem {A B} (f h : A → B) (l : list A) :
  (∀ a, a ∈ l → f a = h a) → f <$> l = h <$> l.
Proof.
  intros Hfh. apply list_fmap_ext. intros i a Ha. apply Hfh.
  by eapply list_elem_of_lookup_2.
Qed.

Lemma pool_segment_spec g w x index s :
  length g = length index → length w = length index → length x = length index →
  pool_segment (width x) (segment s index g) (segment s index w) (segment s index x)
  = spec_output g w x index s.
Proof.
  intros Hg Hw Hx. unfold pool_segment, spec_output. f_equal.
  assert (HU : segment_unnorm (segment s index g) (segment s index w) =
               spec_unnorm g w index <$> members s index).
  { unfold segment_unnorm.
    rewrite (segment_members s index g), (segment_members s index w) by done.
    rewrite zip_with_fmap_l, zip_with_fmap_r, zip_with_diag.
    apply fmap_ext_elem. intros r Hr. unfold spec_unnorm, spec_logit_max.
    by rewrite (members_index_total s index r Hr). }
  unfold segment_coeff. rewrite HU, <- list_fmap_compose.
  rewrite (segment_members s index x) by done.
  rewrite zip_with_fmap_l, zip_with_fmap_r, zip_with_diag.
  apply fmap_ext_elem. intros r Hr. simpl. unfold spec_coeff.
  by rewrite (members_index_total s index r Hr).
Qed.

(** C1. For index, weights and gate output of the length of x,
    GlobalAttention.forward returns one row per segment id below
    [dim_size index], and row s is the sum over the rows r with
    index[r] = s of coeff[r] * x[r], where coeff[r] is
    weights[r] * exp(g[r] - segment max) divided by the segment's sum of these
    values plus 1e-13, and g is the output of the gate network. *)
Theorem forward_is_spec_output self x index weights :
  length index = length x →
  length weights = length x →
  length (GlobalAttention.gate_nn self x) = length x →
  ∃ out, GlobalAttention.forward self x index weights = Ok out ∧
         length out = dim_size index ∧
         ∀ s, (s < dim_size index)%nat →
              out !! s = Some (spec_output (GlobalAttention.gate_nn self x)
                                 weights x index s).
Proof.
  intros Hi Hw Hg.
  eexists. split; [by apply forward_segments|].
  split; [by rewrite length_fmap, length_seq|].
  intros s Hs. rewrite list_lookup_fmap, lookup_seq_lt by done. simpl.
  f_equal. apply pool_segment_spec; congruence.
Qed.

Lemma forward_is_spec_output_witness :
  ∃ out, GlobalAttention.forward
           {| GlobalAttention.gate_nn := λ x, (λ row, row !!! 0%nat) <$> x |}
           [[1]; [3]; [5]] [0; 2; 0]%nat [1; 1; 2] = Ok out ∧
         length out = 3%nat ∧
         ∀ s, (s < 3)%nat →
              out !! s =
              Some (spec_output [1; 3; 5] [1; 1; 2] [[1]; [3]; [5]] [0; 2; 0]%nat s).
Proof.
  exact (forward_is_spec_output
           {| GlobalAttention.gate_nn := λ x, (λ row, row !!! 0%nat) <$> x |}
           [[1]; [3]; [5]] [0; 2; 0]%nat [1; 1; 2] eq_refl eq_refl eq_refl).
Defined.

(** ** Number of output rows and empty segments *)

Lemma pool_segment_nil d : pool_segment d [] [] [] = zeros d.
Proof. reflexivity. Qed.

Lemma forward_empty_segment self x index weights s :
  length index = length x →
  length weights = length x →
  length (GlobalAttention.gate_nn self x) = length x →
  s ∉ index →
  ∃ out, GlobalAttention.forward self x index weights = Ok out ∧
         length out = dim_size index ∧
         out !! s = if decide (s < dim_size index)%nat
                    then Some (zeros (width x)) else None.
Proof.
  intros Hi Hw Hg Hs.
  destruct (forward_lookup self x index weights s Hi Hw Hg) as (out & Hout & Hlen & Hrow).
  exists out. split_and!; [done..|]. rewrite Hrow.
  by rewrite !segment_empty.
Qed.

(** C10. The result has [dim_size index] rows, which is one plus the largest
    id occurring in a non-empty index; an id below that bound without member
    rows yields the zero vector, and an id at or above it yields no row. *)
Theorem forward_row_count self x index weights :
  length index = length x →
  length weights = length x →
  length (GlobalAttention.gate_nn self x) = length x →
  ∃ out, GlobalAttention.forward self x index weights = Ok out ∧
         length out = dim_size index ∧
         (index ≠ [] → length out = S (max_list index)) ∧
         (∀ s, (s < dim_size index)%nat → s ∉ index →
               out !! s = Some (zeros (width x))) ∧
         (∀ s, (dim_size index ≤ s)%nat → out !! s = None).
Proof.
  intros Hi Hw Hg.
  destruct (forward_lookup self x index weights 0 Hi Hw Hg) as (out & Hout & Hlen & _).
  exists out. split_and!; [done..| | |].
  - intros Hne. rewrite Hlen. by destruct index.
  - intros s Hs Hnin.
    destruct (forward_empty_segment self x index weights s Hi Hw Hg Hnin)
      as (out' & Hout' & _ & Hrow).
    rewrite Hout in Hout'. injection Hout' as <-.
    rewrite Hrow. by destruct (decide (s < dim_size index)%nat).
  - intros s Hs. apply lookup_ge_None. lia.
Qed.

Lemma forward_row_count_witness :
  ∃ out, GlobalAttention.forward
           {| GlobalAttention.gate_nn := λ x, (λ row, row !!! 0%nat) <$> x |}
           [[1]; [3]; [5]] [0; 2; 0]%nat [1; 1; 2] = Ok out ∧
         length out = 3%nat ∧
         ([0; 2; 0]%nat ≠ [] → length out = 3%nat) ∧
         (∀ s, (s < 3)%nat → s ∉ [0; 2; 0]%nat → out !! s = Some [0]) ∧
         (∀ s, (3 ≤ s)%nat → out !! s = None).
Proof.
  exact (forward_row_count
           {| GlobalAttention.gate_nn := λ x, (λ row, row !!! 0%nat) <$> x |}
           [[1]; [3]; [5]] [0; 2; 0]%nat [1; 1; 2] eq_refl eq_refl eq_refl).
Defined.

(** C9, as stated, fails: with ids drawn from [0, 2) and only id 0 present,
    the call returns a single row, so the empty segment 1 has no output
    row. *)
Lemma empty_trailing_segment_has_no_row :
  Forall (λ i, (i < 2)%nat) [0%nat] ∧ (1 < 2)%nat ∧ (1%nat ∉ [0%nat]) ∧
  ∃ out, GlobalAttention.forward
           {| GlobalAttention.gate_nn := λ x, (λ _ : vec, 0) <$> x |}
           [[1]] [0%nat] [1] = Ok out ∧
         length out = 1%nat ∧ out !! 1%nat = None.
Proof.
  split_and!.
  - repeat constructor.
  - lia.
  - intros Hin. apply elem_of_cons in Hin as [Hin|Hin]; [discriminate|].
    by apply elem_of_nil in Hin.
  - destruct (forward_lookup
                {| GlobalAttention.gate_nn := λ x, (λ _ : vec, 0) <$> x |}
                [[1]] [0%nat] [1] 1)
      as (out & Hout & Hlen & Hrow); [reflexivity..|].
    exists out. split_and!; [done..|]. apply lookup_ge_None. rewrite Hlen.
    simpl. lia.
Qed.

(** C9, amended. A call with index, weights and gate output of the length of
    x does not raise, and a segment id without member rows that lies below
    [dim_size index] has an output row: the zero vector, hence of magnitude at
    most 1/eps. *)
Theorem empty_segment_row self x index weights s :
  length index = length x →
  length weights = length x →
  length (GlobalAttention.gate_nn self x) = length x →
  s ∉ index →
  (s < dim_size index)%nat →
  ∃ out row, GlobalAttention.forward self x index weights = Ok out ∧
             out !! s = Some row ∧ row = zeros (width x) ∧
             Forall (λ v, Rabs v <= / eps) row.
Proof.
  intros Hi Hw Hg Hs Hlt.
  destruct (forward_empty_segment self x index weights s Hi Hw Hg Hs)
    as (out & Hout & Hlen & Hrow).
  exists out, (zeros (width x)).
  rewrite Hrow. destruct (decide (s < dim_size index)%nat); [|lia].
  split_and!; [done..|].
  apply Forall_replicate. rewrite Rabs_R0.
  apply Rlt_le, Rinv_0_lt_compat. unfold eps. lra.
Qed.

Lemma empty_segment_row_witness :
  ∃ out row, GlobalAttention.forward
               {| GlobalAttention.gate_nn := λ x, (λ row, row !!! 0%nat) <$> x |}
               [[1]; [3]; [5]] [0; 2; 0]%nat [1; 1; 2] = Ok out ∧
             out !! 1%nat = Some row ∧ row = [0] ∧
             Forall (λ v, Rabs v <= / eps) row.
Proof.
  refine (empty_segment_row
            {| GlobalAttention.gate_nn := λ x, (λ row, row !!! 0%nat) <$> x |}
            [[1]; [3]; [5]] [0; 2; 0]%nat [1; 1; 2] 1 eq_refl eq_refl eq_refl _ _).
  - intros Hin. repeat (apply elem_of_cons in Hin as [Hin|Hin]; [discriminate|]).
    by apply elem_of_nil in Hin.
  - simpl. lia.
Defined.

(** ** Shift invariance *)

Lemma segment_unnorm_shift c G W :
  segment_unnorm ((λ v, v + c) <$> G) W = segment_unnorm G W.
Proof.
  unfold segment_unnorm. destruct (decide (G = [])) as [->|Hne]; [reflexivity|].
  rewrite Rmax_list_shift, zip_with_fmap_r by done.
  apply zip_with_ext; [|done..]. intros w g. do 2 f_equal. lra.
Qed.

Lemma pool_segment_shift d c G W X :
  pool_segment d ((λ v, v + c) <$> G) W X = pool_segment d G W X.
Proof. unfold pool_segment, segment_coeff. by rewrite segment_unnorm_shift. Qed.

(** C4. Two gate networks whose logits on the rows of segment s differ by the
    constant c (and are unrelated on all other rows) give the same pooled
    row s. *)
Theorem forward_shift_invariant self self' x index weights s c :
  length index = length x →
  length weights = length x →
  length (GlobalAttention.gate_nn self x) = length x →
  length (GlobalAttention.gate_nn self' x) = length x →
  (∀ r, index !! r = Some s →
        GlobalAttention.gate_nn self' x !! r =
        (λ v, v + c) <$> GlobalAttention.gate_nn self x !! r) →
  ∃ out out', GlobalAttention.forward self x index weights = Ok out ∧
              GlobalAttention.forward self' x index weights = Ok out' ∧
              out' !! s = out !! s.
Proof.
  intros Hi Hw Hg Hg' Hshift.
  destruct (forward_lookup self x index weights s Hi Hw Hg) as (out & Hout & _ & Hrow).
  destruct (forward_lookup self' x index weights s Hi Hw Hg') as (out' & Hout' & _ & Hrow').
  exists out, out'. split_and!; [done..|].
  rewrite Hrow, Hrow'. destruct (decide (s < dim_size index)%nat); [|done].
  f_equal.
  rewrite (segment_ext s index (GlobalAttention.gate_nn self' x)
             ((λ v, v + c) <$> GlobalAttention.gate_nn self x)).
  - rewrite segment_fmap. apply pool_segment_shift.
  - congruence.
  - rewrite length_fmap. congruence.
  - intros r Hr. rewrite list_lookup_fmap. by apply Hshift.
Qed.

Lemma forward_shift_invariant_witness :
  ∃ out out',
    GlobalAttention.forward
      {| GlobalAttention.gate_nn := λ x, (λ row, row !!! 0%nat) <$> x |}
      [[1]; [3]; [5]] [0; 2; 0]%nat [1; 1; 2] = Ok out ∧
    GlobalAttention.forward
      {| GlobalAttention.gate_nn :=
           λ x, zip_with Rplus ((λ row, row !!! 0%nat) <$> x) [7; 100; 7] |}
      [[1]; [3]; [5]] [0; 2; 0]%nat [1; 1; 2] = Ok out' ∧
    out' !! 0%nat = out !! 0%nat.
Proof.
  refine (forward_shift_invariant
            {| GlobalAttention.gate_nn := λ x, (λ row, row !!! 0%nat) <$> x |}
            {| GlobalAttention.gate_nn :=
                 λ x, zip_with Rplus ((λ row, row !!! 0%nat) <$> x) [7; 100; 7] |}
            [[1]; [3]; [5]] [0; 2; 0]%nat [1; 1; 2] 0 7
            eq_refl eq_refl eq_refl eq_refl _).
  intros [|[|[|r]]] Hr; simpl in Hr; try discriminate; reflexivity.
Defined.

(** ** Coefficient mass of a segment *)

Lemma Rsum_ge_elem l j v :
  Forall (λ u, 0 <= u) l → l !! j = Some v → v <= Rsum l.
Proof.
  intros Hl. revert j. induction Hl as [|u l Hu Hl IH]; intros j Hj; [done|].
  rewrite Rsum_cons. destruct j as [|j]; simpl in Hj.
  - injection Hj as ->. pose proof (Rsum_nonneg l Hl). lra.
  - specialize (IH j Hj). lra.
Qed.

Lemma elem_of_segment {A} s index (l : list A) r v :
  l !! r = Some v → index !! r = Some s → v ∈ segment s index l.
Proof.
  revert l r. induction index as [|i index IH]; intros [|a l] [|r] Hl Hi;
    simpl in *; try discriminate.
  - injection Hl as ->. injection Hi as ->. rewrite segment_cons.
    rewrite decide_True by done. left.
  - rewrite segment_cons. destruct (decide (i = s)); [right|]; by eapply IH.
Qed.

Lemma elem_of_segment_inv `{Inhabited A} s index (l : list A) v :
  length l = length index → v ∈ segment s index l →
  ∃ r, index !! r = Some s ∧ l !! r = Some v.
Proof.
  intros Hlen Hv. rewrite (segment_members s index) in Hv by done.
  apply list_elem_of_fmap in Hv as (r & -> & Hr).
  apply elem_of_members in Hr. exists r. split; [done|].
  apply list_lookup_lookup_total_lt. rewrite Hlen. by eapply lookup_lt_Some.
Qed.

Lemma Rsum_ge_elem_of l v :
  Forall (λ u, 0 <= u) l → v ∈ l → v <= Rsum l.
Proof.
  intros Hl Hv. apply list_elem_of_lookup in Hv as [j Hj].
  by eapply Rsum_ge_elem.
Qed.

(** Row r of [weights * gate.exp()]. *)
Lemma unnorm_lookup g w index r s gr wr :
  index !! r = Some s → g !! r = Some gr → w !! r = Some wr →
  unnorm g w index !! r =
  Some (wr * exp (gr - Rmax_list (segment s index g))).
Proof.
  intros Hs Hg Hw. unfold unnorm, stable_logit.
  rewrite lookup_zip_with, list_lookup_fmap, lookup_zip_with, list_lookup_fmap.
  by rewrite Hs, Hg, Hw.
Qed.

Lemma segment_unnorm_nonneg G W :
  Forall (λ w, 0 <= w) W → Forall (λ u, 0 <= u) (segment_unnorm G W).
Proof.
  intros HW. unfold segment_unnorm. generalize (Rmax_list G) as m. intros m.
  revert G. induction HW as [|w W Hw _ IH]; intros [|g G]; simpl;
    constructor; [|apply IH].
  pose proof (exp_pos (g - m)). nra.
Qed.

(** The member with the greatest logit keeps its whole weight. *)
Lemma segment_unnorm_ge ω G W :
  G ≠ [] → length W = length G →
  Forall (λ w, ω <= w) W → 0 <= ω →
  ω <= Rsum (segment_unnorm G W).
Proof.
  intros Hne Hlen HW Hω.
  apply Rmax_list_attained, list_elem_of_lookup in Hne as [j Hj].
  destruct (lookup_lt_is_Some_2 W j) as [w Hw].
  { rewrite Hlen. by eapply lookup_lt_Some. }
  transitivity w.
  { by eapply (proj1 (Forall_lookup _ _) HW). }
  apply (Rsum_ge_elem _ j).
  - apply segment_unnorm_nonneg. eapply Forall_impl; [exact HW|].
    intros u Hu. simpl in Hu. lra.
  - unfold segment_unnorm. rewrite lookup_zip_with, Hw, Hj. simpl.
    rewrite Rminus_diag, exp_0. f_equal. lra.
Qed.

Lemma segment_coeff_sum G W :
  Rsum (segment_coeff G W) =
  Rsum (segment_unnorm G W) / (Rsum (segment_unnorm G W) + eps).
Proof. unfold segment_coeff. apply Rsum_fmap_div. Qed.

Lemma eps_pos : 0 < eps.
Proof. unfold eps. lra. Qed.






(** ** Constant gate logits: the weighted mean *)

Lemma fold_left_Rmax_replicate n a : fold_left Rmax (replicate n a) a = a.
Proof.
  induction n as [|n IH]; [reflexivity|]. simpl.
  replace (Rmax a a) with a; [done|]. unfold Rmax. by destruct (Rle_dec a a).
Qed.

Lemma all_equal_replicate (l : list R) a :
  (∀ v, v ∈ l → v = a) → l = replicate (length l) a.
Proof.
  induction l as [|u l IH]; intros Hl; [reflexivity|]. simpl. f_equal.
  - apply Hl. left.
  - apply IH. intros v Hv. apply Hl. by right.
Qed.

Lemma segment_unnorm_constant G W :
  (∀ a b, a ∈ G → b ∈ G → a = b) → length G = length W →
  segment_unnorm G W = W.
Proof.
  intros Heq Hlen. unfold segment_unnorm.
  destruct G as [|a G]; [by destruct W|].
  rewrite (all_equal_replicate (a :: G) a) by (intros v Hv; apply Heq; [done|left]).
  simpl length. rewrite zip_with_replicate_r_eq by done.
  change (Rmax_list (replicate (S (length G)) a))
    with (fold_left Rmax (replicate (length G) a) a).
  rewrite fold_left_Rmax_replicate.
  rewrite <- (list_fmap_id W) at 2. apply list_fmap_ext. intros _ w _.
  unfold flip. simpl. rewrite Rminus_diag, exp_0. lra.
Qed.

(** When the gate logits are equal within every segment, each coefficient is
    the row's weight over the segment's sum of weights plus eps. *)
Lemma forward_constant_gate self x index weights :
  length index = length x →
  length weights = length x →
  length (GlobalAttention.gate_nn self x) = length x →
  (∀ r r' a b, index !! r = index !! r' →
               GlobalAttention.gate_nn self x !! r = Some a →
               GlobalAttention.gate_nn self x !! r' = Some b → a = b) →
  GlobalAttention.forward self x index weights =
  Ok ((λ s, let W := segment s index weights in
            vsum (width x)
              (zip_with scale ((λ w, w / (Rsum W + eps)) <$> W) (segment s index x)))
        <$> seq 0 (dim_size index)).
Proof.
  intros Hi Hw Hg Hconst. rewrite forward_segments by done. f_equal.
  apply list_fmap_ext. intros _ s _. simpl.
  unfold pool_segment, segment_coeff.
  rewrite segment_unnorm_constant; [done| |apply length_segment; congruence].
  intros a b Ha Hb.
  rewrite (segment_members s index) in Ha, Hb by congruence.
  apply list_elem_of_fmap in Ha as (r & -> & Hr), Hb as (r' & -> & Hr').
  apply elem_of_members in Hr, Hr'.
  assert (Hlt : (r < length (GlobalAttention.gate_nn self x))%nat).
  { rewrite Hg, <- Hi. by eapply lookup_lt_Some. }
  assert (Hlt' : (r' < length (GlobalAttention.gate_nn self x))%nat).
  { rewrite Hg, <- Hi. by eapply lookup_lt_Some. }
  apply (Hconst r r').
  - congruence.
  - by apply list_lookup_lookup_total_lt.
  - by apply list_lookup_lookup_total_lt.
Qed.

(** With gate logits equal within every segment, [weights * gate.exp()] is
    the weight column itself. *)
Lemma unnorm_constant g w index :
  length g = length index → length w = length index →
  (∀ r r' a b, index !! r = index !! r' →
               g !! r = Some a → g !! r' = Some b → a = b) →
  unnorm g w index = w.
Proof.
  intros Hg Hw Hconst. apply list_eq. intros r.
  destruct (w !! r) as [wr|] eqn:Hwr.
  - assert (Hr : (r < length index)%nat).
    { rewrite <- Hw. by eapply lookup_lt_Some. }
    destruct (lookup_lt_is_Some_2 index r Hr) as [s Hs].
    destruct (lookup_lt_is_Some_2 g r) as [gr Hgr]; [by rewrite Hg|].
    rewrite (unnorm_lookup g w index r s gr wr Hs Hgr Hwr). f_equal.
    assert (Hin : Rmax_list (segment s index g) ∈ segment s index g).
    { apply Rmax_list_attained. intros Hnil.
      pose proof (elem_of_segment s index g r gr Hgr Hs) as Hgin.
      rewrite Hnil in Hgin. by apply elem_of_nil in Hgin. }
    apply elem_of_segment_inv in Hin as (r' & Hs' & Hgr'); [|done].
    rewrite <- (Hconst r r' gr _ (eq_trans Hs (eq_sym Hs')) Hgr Hgr').
    rewrite Rminus_diag, exp_0. lra.
  - apply lookup_ge_None. apply lookup_ge_None in Hwr.
    rewrite length_unnorm by done. lia.
Qed.

(** C7. When the gate logits are equal within every segment, the attention
    coefficient of row r is weights[r] / (sum of the weights of r's segment
    + eps), and row s of the result is the sum of the member rows of s
    scaled by these coefficients: the weighted mean of the segment. *)
Theorem constant_gate_coefficients self x index weights :
  length index = length x →
  length weights = length x →
  length (GlobalAttention.gate_nn self x) = length x →
  (∀ r r' a b, index !! r = index !! r' →
               GlobalAttention.gate_nn self x !! r = Some a →
               GlobalAttention.gate_nn self x !! r' = Some b → a = b) →
  let c := zip_with (λ w i, w / (Rsum (segment i index weights) + eps))
             weights index in
  coeff (GlobalAttention.gate_nn self x) weights index = c ∧
  GlobalAttention.forward self x index weights =
  Ok ((λ s, vsum (width x) (segment s index (zip_with scale c x)))
        <$> seq 0 (dim_size index)).
Proof.
  intros Hi Hw Hg Hconst c.
  assert (Hc : coeff (GlobalAttention.gate_nn self x) weights index = c).
  { unfold coeff. rewrite unnorm_constant by (done || congruence).
    subst c. by rewrite zip_with_fmap_r. }
  split; [done|]. rewrite forward_rows by done. by rewrite Hc.
Qed.

Lemma constant_gate_coefficients_witness :
  let c := zip_with (λ w i, w / (Rsum (segment i [0; 2; 0]%nat [1; 4; 2]) + eps))
             [1; 4; 2] [0; 2; 0]%nat in
  coeff ((λ _ : vec, 0) <$> [[1]; [3]; [5]]) [1; 4; 2] [0; 2; 0]%nat = c ∧
  GlobalAttention.forward
    {| GlobalAttention.gate_nn := λ x, (λ _ : vec, 0) <$> x |}
    [[1]; [3]; [5]] [0; 2; 0]%nat [1; 4; 2] =
  Ok ((λ s, vsum 1 (segment s [0; 2; 0]%nat (zip_with scale c [[1]; [3]; [5]])))
        <$> seq 0 3).
Proof.
  refine (constant_gate_coefficients
            {| GlobalAttention.gate_nn := λ x, (λ _ : vec, 0) <$> x |}
            [[1]; [3]; [5]] [0; 2; 0]%nat [1; 4; 2] eq_refl eq_refl eq_refl _).
  intros r r' a b _ Ha Hb. cbn [GlobalAttention.gate_nn] in Ha, Hb.
  rewrite list_lookup_fmap in Ha. rewrite list_lookup_fmap in Hb.
  destruct (_ !! r), (_ !! r'); simpl in *; congruence.
Defined.

(** WeightedMeanPooling.forward is a different reduction: on two rows of one
    segment with unit weights and constant gate logits,
    GlobalAttention.forward returns 4 / (2 + eps), the weighted mean up to
    eps, and WeightedMeanPooling.forward returns the ratio of products, 3. *)
Lemma weighted_mean_pooling_multiplies :
  GlobalAttention.forward
    {| GlobalAttention.gate_nn := λ x, (λ _ : vec, 0) <$> x |}
    [[1]; [3]] [0; 0]%nat [1; 1] = Ok [[4 / (2 + eps)]] ∧
  WeightedMeanPooling.forward [[1]; [3]] [0; 0]%nat [1; 1] = Ok [[3]] ∧
  3 ≠ 4 / (2 + eps).
Proof.
  pose proof eps_pos as He. split_and!.
  - rewrite forward_constant_gate; [|reflexivity..|].
    + change (Ok [[(1 / (1 + (1 + 0) + eps)) * 1
                   + ((1 / (1 + (1 + 0) + eps)) * 3 + 0)]] =
              Ok [[4 / (2 + eps)]]).
      do 3 f_equal. field. lra.
    + intros r r' a b _ Ha Hb. cbn [GlobalAttention.gate_nn] in Ha, Hb.
      rewrite list_lookup_fmap in Ha. rewrite list_lookup_fmap in Hb.
      destruct (_ !! r), (_ !! r'); simpl in *; congruence.
  - unfold WeightedMeanPooling.forward.
    change (broadcast_scale [1; 1] [[1]; [3]]) with (Ok [[1 * 1]; [1 * 3]]).
    rewrite bind_Ok. unfold scatter_mul_rows, scatter_mul.
    rewrite !scatter_ok, !bind_Ok by reflexivity.
    change (Ok [[(1 * (1 * 1) * (1 * 3)) / (1 * 1 * 1)]] = Ok [[3]]).
    do 3 f_equal. field.
  - intros Heq. assert (4 / (2 + eps) < 2); [|lra].
    apply Rmult_lt_reg_r with (2 + eps); [lra|].
    unfold Rdiv. rewrite Rmult_assoc, Rinv_l by lra. lra.
Qed.

(** ** Rows of weight zero *)

Lemma length_vadd u v : length u = length v → length (vadd u v) = length v.
Proof. intros Hlen. unfold vadd. by rewrite length_zip_with_r_eq. Qed.

Lemma length_vsum d rows :
  Forall (λ row : vec, length row = d) rows → length (vsum d rows) = d.
Proof.
  induction 1 as [|row rows Hrow _ IH]; [apply length_replicate|].
  simpl. rewrite length_vadd; congruence.
Qed.

Lemma vadd_zeros_l d v : length v = d → vadd (zeros d) v = v.
Proof.
  intros <-. unfold vadd, zeros. induction v as [|a v IH]; [reflexivity|].
  simpl. rewrite IH. f_equal. lra.
Qed.

Lemma scale_0 v : scale 0 v = zeros (length v).
Proof.
  unfold scale, zeros. induction v as [|a v IH]; [reflexivity|].
  rewrite fmap_cons. simpl. rewrite IH. f_equal. lra.
Qed.

Lemma Forall_segment {A} (P : A → Prop) s index l :
  Forall P l → Forall P (segment s index l).
Proof.
  intros Hl. revert index. induction Hl as [|a l Ha _ IH]; intros [|i index];
    try (unfold segment; simpl; constructor).
  rewrite segment_cons. destruct (decide (i = s)); [constructor|]; auto.
Qed.





(** ** Layers *)

Lemma Linear_forward_ok self input :
  has_width (Linear.in_features self) input = true →
  Linear.forward self input = Ok (Linear.apply_row self <$> input).
Proof. intros H. unfold Linear.forward. by rewrite H. Qed.

Lemma BatchNorm1d_forward_eval self input :
  BatchNorm1d.training self = false →
  has_width (BatchNorm1d.num_features self) input = true →
  BatchNorm1d.forward self input =
  Ok (BatchNorm1d.normalize_row self (BatchNorm1d.running_mean self)
        (BatchNorm1d.running_var self) <$> input).
Proof. intros Ht H. unfold BatchNorm1d.forward. by rewrite Ht, H. Qed.

Lemma BatchNorm1d_forward_train self input :
  BatchNorm1d.training self = true →
  length input ≠ 1%nat →
  has_width (BatchNorm1d.num_features self) input = true →
  BatchNorm1d.forward self input =
  Ok (BatchNorm1d.normalize_row self (BatchNorm1d.batch_mean self input)
        (BatchNorm1d.batch_var self input) <$> input).
Proof.
  intros Ht Hlen H. unfold BatchNorm1d.forward. rewrite Ht, H.
  by destruct (Nat.eqb_spec (length input) 1).
Qed.

Lemma length_pool_segment d G W X :
  Forall (λ row : vec, length row = d) X → length (pool_segment d G W X) = d.
Proof.
  intros HX. unfold pool_segment. apply length_vsum.
  apply Forall_lookup. intros j t Hj.
  apply lookup_zip_with_Some in Hj as (cj & xj & -> & _ & Hxj).
  unfold scale. rewrite length_fmap.
  by eapply (proj1 (Forall_lookup _ _) HX).
Qed.

(** ** MessageLayer.forward on well-shaped inputs *)

Lemma has_width_Forall d X :
  has_width d X = true ↔ Forall (λ row : vec, length row = d) X.
Proof.
  unfold has_width. induction X as [|row X IH]; simpl.
  - split; [constructor|done].
  - rewrite andb_true_iff, IH, Nat.eqb_eq, Forall_cons. done.
Qed.

Lemma gather_Forall {A} (P : A → Prop) t index rows :
  gather t index = Ok rows → Forall P t → Forall P rows.
Proof.
  intros Hg Ht. revert rows Hg.
  induction index as [|i index IH]; intros rows Hg; simpl in Hg.
  - injection Hg as <-. constructor.
  - destruct (t !! i) as [a|] eqn:Ha; [|discriminate].
    apply bind_Ok_inv in Hg as (rest & Hrest & Hrows). injection Hrows as <-.
    constructor; [|by apply IH].
    by eapply (proj1 (Forall_lookup _ _) Ht).
Qed.

Lemma Forall_zip_with_rows (f : vec → vec → vec) (P1 P2 P3 : vec → Prop) A B :
  (∀ a b, P1 a → P2 b → P3 (f a b)) →
  Forall P1 A → Forall P2 B → Forall P3 (zip_with f A B).
Proof.
  intros Hf HA. revert B. induction HA as [|a A Ha _ IH]; intros B HB;
    [constructor|].
  destruct HB as [|b B Hb HB]; simpl; constructor; auto.
Qed.

Lemma cat3_ok A B C0 :
  length A = length B → length B = length C0 →
  cat3 A B C0 = Ok (zip_with app A (zip_with app B C0)).
Proof. intros HAB HBC. unfold cat3. by rewrite HAB, HBC, Nat.eqb_refl. Qed.

(** For a layer shaped as [__init__] shapes it, atom and bond features of the
    declared widths, bond indices that refer to existing atoms, and a gate
    network that returns one logit per row, the call returns
    [dim_size self_fea_idx] rows of width [atom_fea_len]: one row per atom
    only when the last atom owns a bond. *)
Lemma MessageLayer_forward_shape layer w X bond sidx nidx :
  MessageLayer.shaped layer →
  length (Linear.weight (MessageLayer.filter_msg layer)) = MessageLayer.atom_fea_len layer →
  length (Linear.bias (MessageLayer.filter_msg layer)) = MessageLayer.atom_fea_len layer →
  length (Linear.weight (MessageLayer.core_msg layer)) = MessageLayer.atom_fea_len layer →
  length (Linear.bias (MessageLayer.core_msg layer)) = MessageLayer.atom_fea_len layer →
  (∀ m, length (GlobalAttention.gate_nn (MessageLayer.pooling layer) m) = length m) →
  Forall (λ row : vec, length row = MessageLayer.atom_fea_len layer) X →
  Forall (λ row : vec, length row = MessageLayer.nbr_fea_len layer) bond →
  length w = length X →
  length sidx = length bond → length nidx = length bond →
  length bond ≠ 1%nat →
  Forall (λ i, (i < length X)%nat) sidx →
  Forall (λ i, (i < length X)%nat) nidx →
  ∃ out, MessageLayer.forward layer w X bond sidx nidx = Ok out ∧
         length out = dim_size sidx ∧
         Forall (λ row : vec, length row = MessageLayer.atom_fea_len layer) out.
Proof.
  intros (Hfi & Hfo & Hfn & Hci & Hco & Hcn) Hfw Hfb Hcw Hcb Hgate HX Hbond
    Hw Hs Hn HM Hsi Hni.
  unfold MessageLayer.forward.
  destruct (gather_ok w nidx) as (nw & -> & Hnw & _); [by rewrite Hw|].
  destruct (gather_ok X nidx Hni) as (NF & HNF & HlNF & _).
  destruct (gather_ok X sidx Hsi) as (SF & HSF & HlSF & _).
  rewrite HNF, HSF, !bind_Ok.
  pose proof (gather_Forall _ _ _ _ HNF HX) as HwNF.
  pose proof (gather_Forall _ _ _ _ HSF HX) as HwSF.
  rewrite cat3_ok, bind_Ok by lia.
  set (total := zip_with app SF (zip_with app NF bond)).
  assert (Htotal : Forall (λ row : vec, length row =
            (2 * MessageLayer.atom_fea_len layer + MessageLayer.nbr_fea_len layer)%nat)
            total).
  { apply (Forall_zip_with_rows app
             (λ row, length row = MessageLayer.atom_fea_len layer)
             (λ row, length row = (MessageLayer.atom_fea_len layer
                                   + MessageLayer.nbr_fea_len layer)%nat));
      [intros a b Ha Hb; rewrite length_app; lia|exact HwSF|].
    apply (Forall_zip_with_rows app
             (λ row, length row = MessageLayer.atom_fea_len layer)
             (λ row, length row = MessageLayer.nbr_fea_len layer));
      [intros a b Ha Hb; rewrite length_app; lia|exact HwNF|exact Hbond]. }
  assert (Hlt : length total = length bond).
  { unfold total. rewrite !length_zip_with_l_eq; rewrite ?length_zip_with_l_eq; lia. }
  rewrite (Linear_forward_ok (MessageLayer.filter_msg layer))
    by (apply has_width_Forall; by rewrite Hfi).
  rewrite bind_Ok.
  assert (Hlin : ∀ L, length (Linear.weight L) = MessageLayer.atom_fea_len layer →
                      length (Linear.bias L) = MessageLayer.atom_fea_len layer →
                      Forall (λ row : vec, length row = MessageLayer.atom_fea_len layer)
                        (Linear.apply_row L <$> total)).
  { intros L HLw HLb. apply Forall_fmap, Forall_forall. intros row _. simpl.
    unfold Linear.apply_row. rewrite length_zip_with. lia. }
  assert (Hbn : ∀ B L,
            BatchNorm1d.num_features B = MessageLayer.atom_fea_len layer →
            length (Linear.weight L) = MessageLayer.atom_fea_len layer →
            length (Linear.bias L) = MessageLayer.atom_fea_len layer →
            ∃ Y, BatchNorm1d.forward B (Linear.apply_row L <$> total) = Ok Y ∧
                 length Y = length bond ∧
                 Forall (λ row : vec, length row = MessageLayer.atom_fea_len layer) Y).
  { intros B L HB HLw HLb. unfold BatchNorm1d.forward.
    rewrite length_fmap, Hlt.
    destruct (Nat.eqb_spec (length bond) 1) as [|_]; [done|].
    rewrite (proj2 (has_width_Forall _ _)) by (rewrite HB; by apply Hlin).
    destruct (BatchNorm1d.training B); (eexists; split; [done|]);
      rewrite !length_fmap; (split; [done|]);
      apply Forall_fmap, (Forall_impl _ _ _ (Hlin L HLw HLb)); intros row Hrow;
      simpl; unfold BatchNorm1d.normalize_row; by rewrite length_imap. }
  destruct (Hbn _ _ Hfn Hfw Hfb) as (F & -> & HlF & HwF).
  rewrite bind_Ok.
  rewrite (Linear_forward_ok (MessageLayer.core_msg layer))
    by (apply has_width_Forall; by rewrite Hci).
  rewrite bind_Ok.
  destruct (Hbn _ _ Hcn Hcw Hcb) as (K & -> & HlK & HwK).
  rewrite bind_Ok.
  set (msg := zip_with vmul _ _).
  assert (Hlm : length msg = length bond).
  { unfold msg. rewrite length_zip_with_l_eq; rewrite !length_fmap; lia. }
  assert (Hwm : Forall (λ row : vec, length row = MessageLayer.atom_fea_len layer) msg).
  { apply (Forall_zip_with_rows vmul
             (λ row, length row = MessageLayer.atom_fea_len layer)
             (λ row, length row = MessageLayer.atom_fea_len layer)).
    - intros a b Ha Hb. unfold vmul. rewrite length_zip_with. lia.
    - apply Forall_fmap, (Forall_impl _ _ _ HwF). intros row Hrow. simpl.
      by rewrite length_fmap.
    - apply Forall_fmap, (Forall_impl _ _ _ HwK). intros row Hrow. simpl.
      by rewrite length_fmap. }
  rewrite forward_segments by (rewrite ?Hgate; lia).
  eexists. split; [done|]. split; [by rewrite length_fmap, length_seq|].
  apply Forall_fmap, Forall_forall. intros s Hs'. simpl.
  assert (Hwidth : width msg = MessageLayer.atom_fea_len layer).
  { destruct Hwm as [|row msg' Hrow _]; [|done].
    simpl in Hlm. destruct sidx; [by apply elem_of_nil in Hs'|].
    simpl in Hs. lia. }
  rewrite Hwidth. by apply length_pool_segment, Forall_segment.
Qed.

(** ** MessageLayer.forward: the number of rows it returns *)

(** C2. A freshly built layer of width 1 on three atoms of which only atoms 0
    and 1 own a bond: the call returns two rows, not one per atom. *)
Theorem message_layer_drops_trailing_atom :
  let bn := {| BatchNorm1d.num_features := 1; BatchNorm1d.bn_eps := 1e-5;
               BatchNorm1d.weight := [1]; BatchNorm1d.bias := [0];
               BatchNorm1d.running_mean := [0]; BatchNorm1d.running_var := [1];
               BatchNorm1d.training := true |} in
  let lin := {| Linear.in_features := 3; Linear.out_features := 1;
                Linear.weight := [[1; 0; 0]]; Linear.bias := [0] |} in
  let layer := {| MessageLayer.atom_fea_len := 1; MessageLayer.nbr_fea_len := 1;
                  MessageLayer.filter_msg := lin; MessageLayer.filter_bn := bn;
                  MessageLayer.core_msg := lin; MessageLayer.core_bn := bn;
                  MessageLayer.pooling :=
                    {| GlobalAttention.gate_nn := λ x, (λ _ : vec, 0) <$> x |} |} in
  let atom_in_fea := [[1]; [2]; [3]] in
  ∃ out, MessageLayer.forward layer [1; 1; 1] atom_in_fea [[0]; [0]]
           [0; 1]%nat [1; 0]%nat = Ok out ∧
         length out = 2%nat ∧ length atom_in_fea = 3%nat ∧
         Forall (λ row : vec, length row = 1%nat) out.
Proof.
  intros bn lin layer atom_in_fea. unfold MessageLayer.forward.
  change (gather [1; 1; 1] [1; 0]%nat) with (Ok [1; 1]).
  change (gather atom_in_fea [1; 0]%nat) with (Ok [[2]; [1]]).
  change (gather atom_in_fea [0; 1]%nat) with (Ok [[1]; [2]]).
  rewrite !bind_Ok.
  change (cat3 [[1]; [2]] [[2]; [1]] [[0]; [0]]) with (Ok [[1; 2; 0]; [2; 1; 0]]).
  rewrite bind_Ok.
  rewrite !Linear_forward_ok, bind_Ok by reflexivity.
  rewrite BatchNorm1d_forward_train, !bind_Ok by (reflexivity || (simpl; lia)).
  rewrite BatchNorm1d_forward_train, bind_Ok by (reflexivity || (simpl; lia)).
  set (msg := zip_with vmul _ _).
  destruct (forward_lookup (MessageLayer.pooling layer) msg [0; 1]%nat [1; 1] 0)
    as (out & Hout & Hlen & _); [reflexivity..|].
  exists out. split_and!; [done..|].
  rewrite forward_segments in Hout by reflexivity. injection Hout as <-.
  assert (Hmsg : Forall (λ row : vec, length row = 1%nat) msg)
    by (repeat constructor).
  repeat constructor; by apply length_pool_segment, Forall_segment.
Qed.

(** ** CompositionNet.forward without an output transform *)

Lemma init_without_output_nn embedding0 layers0 nbr_fea_len atom_gate crys_gate
    atom_fea_len :
  CompositionNet.getattr_output_nn
    (CompositionNet.init embedding0 layers0 nbr_fea_len atom_gate crys_gate
       atom_fea_len None) = Raise AttributeError.
Proof. reflexivity. Qed.

(** C3. A network constructed with [output_nn=None] never returns from
    forward, whatever the input; on a batch of two bonded atoms, where the
    crystal features are computed without error, the call raises
    AttributeError at [self.output_nn]. *)
Theorem forward_without_output_nn_raises :
  (∀ embedding0 layers0 nbr_fea_len atom_gate crys_gate atom_fea_len
     atom_weights orig_atom_fea nbr_fea self_fea_idx nbr_fea_idx
     crystal_atom_idx out,
     CompositionNet.forward
       (CompositionNet.init embedding0 layers0 nbr_fea_len atom_gate crys_gate
          atom_fea_len None)
       atom_weights orig_atom_fea nbr_fea self_fea_idx nbr_fea_idx
       crystal_atom_idx ≠ Ok out) ∧
  let bn := {| BatchNorm1d.num_features := 1; BatchNorm1d.bn_eps := 1e-5;
               BatchNorm1d.weight := [1]; BatchNorm1d.bias := [0];
               BatchNorm1d.running_mean := [0]; BatchNorm1d.running_var := [1];
               BatchNorm1d.training := true |} in
  let lin := {| Linear.in_features := 3; Linear.out_features := 1;
                Linear.weight := [[1; 0; 0]]; Linear.bias := [0] |} in
  let emb := {| Linear.in_features := 1; Linear.out_features := 1;
                Linear.weight := [[1]]; Linear.bias := [0] |} in
  let gate := {| GlobalAttention.gate_nn := λ x, (λ _ : vec, 0) <$> x |} in
  let net := CompositionNet.init emb [(lin, bn, lin, bn)] 1 gate gate 1 None in
  (∃ crys_fea,
     CompositionNet.crystal_features net [1; 1] [[1]; [2]] [[0]; [0]]
       [0; 1]%nat [1; 0]%nat [0; 0]%nat = Ok crys_fea ∧ length crys_fea = 1%nat) ∧
  CompositionNet.forward net [1; 1] [[1]; [2]] [[0]; [0]]
    [0; 1]%nat [1; 0]%nat [0; 0]%nat = Raise AttributeError.
Proof.
  split.
  - intros. unfold CompositionNet.forward.
    rewrite init_without_output_nn.
    by destruct (CompositionNet.crystal_features _ _ _ _ _ _ _).
  - intros bn lin emb gate net.
    assert (Hfea : ∃ crys_fea,
      CompositionNet.crystal_features net [1; 1] [[1]; [2]] [[0]; [0]]
        [0; 1]%nat [1; 0]%nat [0; 0]%nat = Ok crys_fea ∧ length crys_fea = 1%nat).
    { unfold CompositionNet.crystal_features.
      rewrite Linear_forward_ok, bind_Ok by reflexivity.
      change (Linear.apply_row (CompositionNet.embedding net) <$> [[1]; [2]])
        with [[1 * 1 + 0 + 0]; [2 * 1 + 0 + 0]].
      cbn [CompositionNet.message_passing CompositionNet.graphs net
           CompositionNet.init fmap list_fmap].
      unfold MessageLayer.forward.
      change (gather [1; 1] [1; 0]%nat) with (Ok [1; 1]).
      rewrite bind_Ok.
      set (a := 1 * 1 + 0 + 0). set (b := 2 * 1 + 0 + 0).
      change (gather [[a]; [b]] [1; 0]%nat) with (Ok [[b]; [a]]).
      change (gather [[a]; [b]] [0; 1]%nat) with (Ok [[a]; [b]]).
      rewrite !bind_Ok.
      change (cat3 [[a]; [b]] [[b]; [a]] [[0]; [0]])
        with (Ok [[a; b; 0]; [b; a; 0]]).
      rewrite bind_Ok.
      rewrite !Linear_forward_ok, bind_Ok by reflexivity.
      rewrite BatchNorm1d_forward_train, !bind_Ok by (reflexivity || (simpl; lia)).
      rewrite BatchNorm1d_forward_train, bind_Ok by (reflexivity || (simpl; lia)).
      rewrite forward_segments, bind_Ok by reflexivity.
      eexists. split; [apply forward_segments; reflexivity|reflexivity]. }
    split; [exact Hfea|].
    destruct Hfea as (crys_fea & Hfea & _).
    unfold CompositionNet.forward. rewrite Hfea. reflexivity.
Qed.

(** ** Two runs on inputs that agree on a set of rows *)

Lemma same_shape_refl X : same_shape X X.
Proof. unfold same_shape. induction X; constructor; auto. Qed.

Lemma same_shape_sym X X' : same_shape X X' → same_shape X' X.
Proof. unfold same_shape. induction 1; constructor; auto. Qed.

Lemma same_shape_length X X' : same_shape X X' → length X = length X'.
Proof. apply Forall2_length. Qed.

Lemma same_shape_width X X' : same_shape X X' → width X = width X'.
Proof. by destruct 1. Qed.

Lemma same_shape_has_width d X X' :
  same_shape X X' → has_width d X = has_width d X'.
Proof.
  unfold has_width. induction 1 as [|r r' X X' Hr _ IH]; [done|].
  simpl. by rewrite Hr, IH.
Qed.

Lemma same_shape_fmap (f f' : vec → vec) X X' :
  (∀ r r', length r = length r' → length (f r) = length (f' r')) →
  same_shape X X' → same_shape (f <$> X) (f' <$> X').
Proof.
  intros Hf. unfold same_shape. induction 1; rewrite ?fmap_cons; constructor; auto.
Qed.

Lemma same_shape_zip_with (f : vec → vec → vec) A A' B B' :
  (∀ a a' b b', length a = length a' → length b = length b' →
                length (f a b) = length (f a' b')) →
  same_shape A A' → same_shape B B' →
  same_shape (zip_with f A B) (zip_with f A' B').
Proof.
  intros Hf HA. revert B B'. unfold same_shape in *.
  induction HA as [|a a' A A' Ha _ IH]; intros B B' HB; [constructor|].
  destruct HB as [|b b' B B' Hb HB]; simpl; constructor; auto.
Qed.

Lemma same_shape_segment s index X X' :
  same_shape X X' → same_shape (segment s index X) (segment s index X').
Proof.
  intros HX. revert index. unfold same_shape in *.
  induction HX as [|r r' X X' Hr _ IH]; intros [|i index];
    try (unfold segment; simpl; constructor).
  rewrite !segment_cons. destruct (decide (i = s)); [constructor|]; auto.
Qed.

Lemma agree_on_refl P X : agree_on P X X.
Proof. split; [apply same_shape_refl|done]. Qed.

Lemma agree_on_sym P X X' : agree_on P X X' → agree_on P X' X.
Proof.
  intros [Hs Hp]. split; [by apply same_shape_sym|].
  intros j Hj. symmetry. by apply Hp.
Qed.

Lemma agree_on_fmap P (f : vec → vec) X X' :
  (∀ r r', length r = length r' → length (f r) = length (f r')) →
  agree_on P X X' → agree_on P (f <$> X) (f <$> X').
Proof.
  intros Hf [Hs Hp]. split; [by apply same_shape_fmap|].
  intros j Hj. by rewrite !list_lookup_fmap, Hp.
Qed.

Lemma agree_on_zip_with P (f : vec → vec → vec) A A' B B' :
  (∀ a a' b b', length a = length a' → length b = length b' →
                length (f a b) = length (f a' b')) →
  agree_on P A A' → agree_on P B B' →
  agree_on P (zip_with f A B) (zip_with f A' B').
Proof.
  intros Hf [HsA HpA] [HsB HpB]. split; [by apply same_shape_zip_with|].
  intros j Hj. by rewrite !lookup_zip_with, HpA, HpB.
Qed.

Lemma gather_length {A} (t : list A) index rows :
  gather t index = Ok rows → length rows = length index.
Proof.
  revert rows. induction index as [|i index IH]; intros rows Hg; simpl in Hg.
  - by injection Hg as <-.
  - destruct (t !! i) as [a|]; [|discriminate].
    apply bind_Ok_inv in Hg as (rest & Hrest & Hrows).
    injection Hrows as <-. simpl. by rewrite (IH rest).
Qed.

Lemma gather_agree P Q X X' index Y :
  gather X index = Ok Y →
  agree_on P X X' →
  (∀ j i, index !! j = Some i → Q j → P i) →
  ∃ Y', gather X' index = Ok Y' ∧ agree_on Q Y Y'.
Proof.
  intros HY [Hs Hp]. revert Q Y HY.
  induction index as [|i index IH]; intros Q Y HY HQ; simpl in HY.
  - injection HY as <-. exists []. split; [done|apply agree_on_refl].
  - destruct (X !! i) as [a|] eqn:Ha; [|discriminate].
    apply bind_Ok_inv in HY as (rest & Hrest & HY). injection HY as <-.
    destruct (Forall2_lookup_l _ _ _ _ _ Hs Ha) as (a' & Ha' & Hlen).
    destruct (IH (λ j, Q (S j)) rest Hrest) as (rest' & Hrest' & [Hs' Hp']).
    { intros j i' Hj. apply (HQ (S j) i' Hj). }
    exists (a' :: rest'). simpl. rewrite Ha', Hrest'. split; [done|].
    split; [by constructor|].
    intros [|j] Hj; simpl.
    + rewrite <- Ha, <- Ha'. apply Hp. by apply (HQ 0%nat i).
    + by apply Hp'.
Qed.

Lemma cat3_agree Q A A' B B' C0 T :
  cat3 A B C0 = Ok T →
  agree_on Q A A' → agree_on Q B B' →
  ∃ T', cat3 A' B' C0 = Ok T' ∧ agree_on Q T T' ∧
        length A = length B ∧ length B = length C0 ∧ length T = length C0.
Proof.
  intros HT HA HB. unfold cat3 in *.
  rewrite <- (same_shape_length A A'), <- (same_shape_length B B')
    by (apply HA || apply HB).
  destruct (Nat.eqb_spec (length A) (length B)) as [HAB|]; [|discriminate].
  destruct (Nat.eqb_spec (length B) (length C0)) as [HBC|]; [|discriminate].
  simpl in *. injection HT as <-. eexists. split; [done|].
  split_and!; [|done..|].
  - apply agree_on_zip_with; [| done |].
    + intros a a' b b' Ha Hb. rewrite !length_app. congruence.
    + apply agree_on_zip_with; [|done|apply agree_on_refl].
      intros a a' b b' Ha Hb. rewrite !length_app. congruence.
  - rewrite !length_zip_with_l_eq; rewrite ?length_zip_with_l_eq; congruence.
Qed.

Lemma Linear_forward_agree P self X X' Y :
  Linear.forward self X = Ok Y →
  agree_on P X X' →
  ∃ Y', Linear.forward self X' = Ok Y' ∧ agree_on P Y Y' ∧ length Y = length X.
Proof.
  intros HY HX. unfold Linear.forward in *.
  rewrite <- (same_shape_has_width _ X X') by apply HX.
  destruct (has_width _ X); [|discriminate]. injection HY as <-.
  eexists. split; [done|]. split; [|by rewrite length_fmap].
  apply agree_on_fmap; [|done].
  intros r r' _. unfold Linear.apply_row. by rewrite !length_zip_with.
Qed.

Lemma BatchNorm1d_forward_agree P self X X' Y :
  BatchNorm1d.training self = false →
  BatchNorm1d.forward self X = Ok Y →
  agree_on P X X' →
  ∃ Y', BatchNorm1d.forward self X' = Ok Y' ∧ agree_on P Y Y' ∧
        length Y = length X.
Proof.
  intros Heval HY HX. unfold BatchNorm1d.forward in *. rewrite Heval in *.
  rewrite <- (same_shape_has_width _ X X') by apply HX.
  destruct (has_width _ X); [|discriminate]. injection HY as <-.
  eexists. split; [done|]. split; [|by rewrite length_fmap].
  apply agree_on_fmap; [|done].
  intros r r' Hr. unfold BatchNorm1d.normalize_row. by rewrite !length_imap.
Qed.

Lemma length_vsum_shape d rows rows' :
  same_shape rows rows' → length (vsum d rows) = length (vsum d rows').
Proof.
  unfold same_shape. induction 1 as [|r r' rows rows' Hr _ IH]; [done|].
  simpl. unfold vadd. rewrite !length_zip_with. congruence.
Qed.

Lemma same_shape_zip_with_scale (c c' : list R) X X' :
  length c = length c' → same_shape X X' →
  same_shape (zip_with scale c X) (zip_with scale c' X').
Proof.
  intros Hc HX. revert c c' Hc. unfold same_shape in *.
  induction HX as [|r r' X X' Hr _ IH]; intros [|a c] [|a' c'] Hc;
    simpl in *; try discriminate; constructor.
  - unfold scale. by rewrite !length_fmap.
  - apply IH. lia.
Qed.

Lemma length_pool_segment_shape d G G' W Xs Xs' :
  length G = length G' → same_shape Xs Xs' →
  length (pool_segment d G W Xs) = length (pool_segment d G' W Xs').
Proof.
  intros HG HX. unfold pool_segment. apply length_vsum_shape.
  apply same_shape_zip_with_scale; [|done].
  unfold segment_coeff, segment_unnorm.
  rewrite !length_fmap, !length_zip_with. congruence.
Qed.

Lemma Forall2_fmap_same {A B} (R : B → B → Prop) (f f' : A → B) l :
  (∀ a, R (f a) (f' a)) → Forall2 R (f <$> l) (f' <$> l).
Proof. intros Hf. induction l; rewrite ?fmap_cons; constructor; auto. Qed.

Lemma forward_Ok_lengths self X index w Y :
  GlobalAttention.forward self X index w = Ok Y →
  length (GlobalAttention.gate_nn self X) = length X ∧ length index = length X.
Proof.
  unfold GlobalAttention.forward. intros HY.
  destruct (Nat.eqb_spec (length (GlobalAttention.gate_nn self X)) (length X))
    as [Hg|]; [|discriminate].
  split; [done|]. simpl in HY. rewrite <- Hg.
  destruct (Nat.eq_dec (length index) (length (GlobalAttention.gate_nn self X)))
    as [|Hne]; [done|].
  unfold scatter_max in HY. by rewrite scatter_length_mismatch in HY.
Qed.

Lemma GlobalAttention_forward_agree P Q self X X' index w Y :
  rowwise_gate self →
  length w = length index →
  GlobalAttention.forward self X index w = Ok Y →
  agree_on Q X X' →
  (∀ j s, index !! j = Some s → P s → Q j) →
  ∃ Y', GlobalAttention.forward self X' index w = Ok Y' ∧ agree_on P Y Y'.
Proof.
  intros [g Hg] Hw HY [Hs Hq] HPQ.
  destruct (forward_Ok_lengths _ _ _ _ _ HY) as [_ Hi].
  pose proof (same_shape_length _ _ Hs) as Hlen.
  rewrite forward_segments in HY
    by (rewrite ?Hg, ?length_fmap; congruence).
  injection HY as <-.
  eexists. split.
  { apply forward_segments; rewrite ?Hg, ?length_fmap; congruence. }
  rewrite !Hg, <- (same_shape_width X X' Hs).
  assert (Hseg : ∀ s, same_shape (segment s index X) (segment s index X'))
    by (intros s; by apply same_shape_segment).
  split.
  - apply Forall2_fmap_same.
    intros s. apply length_pool_segment_shape; [|done].
    rewrite !segment_fmap, !length_fmap. apply (same_shape_length _ _ (Hseg s)).
  - intros s Hps. rewrite !list_lookup_fmap.
    destruct (seq 0 (dim_size index) !! s) as [s'|] eqn:Hseq; [|done].
    apply lookup_seq in Hseq as [-> _]. simpl. do 2 f_equal.
    + rewrite !segment_fmap. f_equal. apply segment_ext; [congruence..|].
      intros r Hr. apply Hq. by apply (HPQ r s).
    + apply segment_ext; [congruence..|].
      intros r Hr. apply Hq. by apply (HPQ r s).
Qed.

Lemma MessageLayer_forward_agree P layer w X X' bond sidx nidx Y :
  eval_mode layer →
  rowwise_gate (MessageLayer.pooling layer) →
  (∀ j a b, sidx !! j = Some a → nidx !! j = Some b → P a → P b) →
  MessageLayer.forward layer w X bond sidx nidx = Ok Y →
  agree_on P X X' →
  ∃ Y', MessageLayer.forward layer w X' bond sidx nidx = Ok Y' ∧ agree_on P Y Y'.
Proof.
  intros [Hfb Hcb] Hgate Hbond HY HX. unfold MessageLayer.forward in *.
  set (Q := λ j, ∃ a, sidx !! j = Some a ∧ P a).
  apply bind_Ok_inv in HY as (nw & Hnw & HY). rewrite Hnw, bind_Ok.
  apply bind_Ok_inv in HY as (NF & HNF & HY).
  destruct (gather_agree P Q X X' nidx NF HNF HX) as (NF' & -> & HNF').
  { intros j b Hj (a & Ha & HPa). by apply (Hbond j a b). }
  rewrite bind_Ok.
  apply bind_Ok_inv in HY as (SF & HSF & HY).
  destruct (gather_agree P Q X X' sidx SF HSF HX) as (SF' & -> & HSF').
  { intros j a Hj (a' & Ha' & HPa). congruence. }
  rewrite bind_Ok.
  apply bind_Ok_inv in HY as (T & HT & HY).
  destruct (cat3_agree Q _ _ _ _ _ _ HT HSF' HNF')
    as (T' & -> & HT' & Hlen1 & Hlen2 & HlenT).
  rewrite bind_Ok.
  apply bind_Ok_inv in HY as (F1 & HF1 & HY).
  destruct (Linear_forward_agree Q _ _ _ _ HF1 HT') as (F1' & -> & HF1' & _).
  rewrite bind_Ok.
  apply bind_Ok_inv in HY as (F2 & HF2 & HY).
  destruct (BatchNorm1d_forward_agree Q _ _ _ _ Hfb HF2 HF1') as (F2' & -> & HF2' & _).
  rewrite bind_Ok.
  apply bind_Ok_inv in HY as (C1 & HC1 & HY).
  destruct (Linear_forward_agree Q _ _ _ _ HC1 HT') as (C1' & -> & HC1' & _).
  rewrite bind_Ok.
  apply bind_Ok_inv in HY as (C2 & HC2 & HY).
  destruct (BatchNorm1d_forward_agree Q _ _ _ _ Hcb HC2 HC1') as (C2' & -> & HC2' & _).
  rewrite bind_Ok.
  eapply (GlobalAttention_forward_agree P Q); [done| |exact HY| |].
  - apply gather_length in Hnw, HNF, HSF. congruence.
  - apply agree_on_zip_with.
    + intros a a' b b' Ha Hb. unfold vmul. rewrite !length_zip_with. congruence.
    + apply agree_on_fmap; [|done]. intros r r' Hr. by rewrite !length_fmap.
    + apply agree_on_fmap; [|done]. intros r r' Hr. by rewrite !length_fmap.
  - intros j s Hj Hs. by exists s.
Qed.

Lemma message_passing_agree P layers w X X' bond sidx nidx Y :
  Forall eval_mode layers →
  Forall (λ layer, rowwise_gate (MessageLayer.pooling layer)) layers →
  (∀ j a b, sidx !! j = Some a → nidx !! j = Some b → P a → P b) →
  CompositionNet.message_passing layers w X bond sidx nidx = Ok Y →
  agree_on P X X' →
  ∃ Y', CompositionNet.message_passing layers w X' bond sidx nidx = Ok Y' ∧
        agree_on P Y Y'.
Proof.
  intros Heval Hgate Hbond. revert X X' Y.
  induction layers as [|layer layers IH]; intros X X' Y HY HX; simpl in *.
  - injection HY as <-. by exists X'.
  - apply Forall_cons in Heval as [He Heval], Hgate as [Hg Hgate].
    apply bind_Ok_inv in HY as (Z & HZ & HY).
    destruct (MessageLayer_forward_agree P _ _ _ _ _ _ _ _ He Hg Hbond HZ HX)
      as (Z' & -> & HZ').
    rewrite bind_Ok. by apply (IH Heval Hgate Z).
Qed.

(** ** Crystal isolation *)

Lemma forward_isolated_one_way net w orig orig' nbr sidx nidx cidx c out :
  Forall eval_mode (CompositionNet.graphs net) →
  Forall (λ layer, rowwise_gate (MessageLayer.pooling layer))
    (CompositionNet.graphs net) →
  rowwise_gate (CompositionNet.pooling net) →
  (∀ m, CompositionNet.output_nn net = Some m → rowwise_head m) →
  (∀ j a b, sidx !! j = Some a → nidx !! j = Some b →
            cidx !! a = Some c → cidx !! b = Some c) →
  length w = length cidx →
  agree_on (λ a, cidx !! a = Some c) orig orig' →
  CompositionNet.forward net w orig nbr sidx nidx cidx = Ok out →
  ∃ out', CompositionNet.forward net w orig' nbr sidx nidx cidx = Ok out' ∧
          out' !! c = out !! c.
Proof.
  intros Heval Hgates Hgate Hhead Hbond Hw Horig Hout.
  unfold CompositionNet.forward, CompositionNet.crystal_features in *.
  apply bind_Ok_inv in Hout as (crys & Hcrys & Hout).
  apply bind_Ok_inv in Hcrys as (E & HE & Hcrys).
  destruct (Linear_forward_agree _ _ _ _ _ HE Horig) as (E' & -> & HE' & _).
  rewrite bind_Ok.
  apply bind_Ok_inv in Hcrys as (F & HF & Hcrys).
  destruct (message_passing_agree _ _ _ _ _ _ _ _ _ Heval Hgates Hbond HF HE')
    as (F' & -> & HF').
  rewrite bind_Ok.
  destruct (GlobalAttention_forward_agree (λ s, s = c) _ _ _ _ _ _ _
              Hgate Hw Hcrys HF')
    as (crys' & -> & Hshape & Hrow).
  { intros j s Hj ->. exact Hj. }
  rewrite bind_Ok.
  apply bind_Ok_inv in Hout as (m & Hm & Hout). rewrite Hm, bind_Ok.
  unfold CompositionNet.getattr_output_nn in Hm.
  destruct (CompositionNet.output_nn net) as [m'|] eqn:Hattr; [|discriminate].
  injection Hm as ->.
  destruct (CompositionNet.truthy m).
  - destruct (Hhead m eq_refl) as [h Hh]. rewrite Hh in *.
    injection Hout as <-. eexists. split; [done|].
    rewrite !list_lookup_fmap. f_equal. symmetry. by apply Hrow.
  - injection Hout as <-. eexists. split; [done|]. symmetry. by apply Hrow.
Qed.

(** C6, amended. With every normalisation step in evaluation mode, gate
    networks and output transform that act row by row, no bond from an atom of
    crystal c to an atom outside it, and as many weights as crystal ids: two
    runs whose atom features have the same shape and agree on the atoms of
    crystal c either both raise or both return, with the same row c. *)
Theorem crystal_isolation net w orig orig' nbr sidx nidx cidx c :
  Forall eval_mode (CompositionNet.graphs net) →
  Forall (λ layer, rowwise_gate (MessageLayer.pooling layer))
    (CompositionNet.graphs net) →
  rowwise_gate (CompositionNet.pooling net) →
  (∀ m, CompositionNet.output_nn net = Some m → rowwise_head m) →
  (∀ j a b, sidx !! j = Some a → nidx !! j = Some b →
            cidx !! a = Some c → cidx !! b = Some c) →
  length w = length cidx →
  same_shape orig orig' →
  (∀ a, cidx !! a = Some c → orig !! a = orig' !! a) →
  row_of c (CompositionNet.forward net w orig nbr sidx nidx cidx) =
  row_of c (CompositionNet.forward net w orig' nbr sidx nidx cidx).
Proof.
  intros Heval Hgates Hgate Hhead Hbond Hw Hshape Hsame.
  assert (Hagree : agree_on (λ a, cidx !! a = Some c) orig orig') by done.
  destruct (CompositionNet.forward net w orig nbr sidx nidx cidx) as [out|e] eqn:H1.
  - destruct (forward_isolated_one_way _ _ _ _ _ _ _ _ _ _
                Heval Hgates Hgate Hhead Hbond Hw Hagree H1) as (out' & -> & Hrow).
    simpl. by rewrite Hrow.
  - destruct (CompositionNet.forward net w orig' nbr sidx nidx cidx)
      as [out'|e'] eqn:H2; [|done].
    destruct (forward_isolated_one_way _ _ _ _ _ _ _ _ _ _
                Heval Hgates Hgate Hhead Hbond Hw (agree_on_sym _ _ _ Hagree) H2)
      as (out & Hout & _).
    congruence.
Qed.

Lemma crystal_isolation_witness :
  let bn := {| BatchNorm1d.num_features := 1; BatchNorm1d.bn_eps := 1e-5;
               BatchNorm1d.weight := [1]; BatchNorm1d.bias := [0];
               BatchNorm1d.running_mean := [0]; BatchNorm1d.running_var := [1];
               BatchNorm1d.training := false |} in
  let lin := {| Linear.in_features := 3; Linear.out_features := 1;
                Linear.weight := [[1; 0; 0]]; Linear.bias := [0] |} in
  let emb := {| Linear.in_features := 1; Linear.out_features := 1;
                Linear.weight := [[1]]; Linear.bias := [0] |} in
  let gate := {| GlobalAttention.gate_nn := λ x, (λ _ : vec, 0) <$> x |} in
  let head := {| CompositionNet.truthy := true;
                 CompositionNet.call := λ X, Ok ((λ row : vec, row) <$> X) |} in
  let net := CompositionNet.init emb [(lin, bn, lin, bn)] 1 gate gate 1
               (Some head) in
  let nbr := [[0]; [0]; [0]; [0]; [0]; [0]] in
  let sidx := [0; 1; 2; 2; 3; 4]%nat in
  let nidx := [1; 0; 3; 4; 2; 2]%nat in
  let cidx := [0; 0; 1; 1; 1]%nat in
  row_of 0 (CompositionNet.forward net [1; 1; 1; 1; 1]
              [[1]; [2]; [3]; [4]; [5]] nbr sidx nidx cidx) =
  row_of 0 (CompositionNet.forward net [1; 1; 1; 1; 1]
              [[1]; [2]; [30]; [40]; [50]] nbr sidx nidx cidx).
Proof.
  intros bn lin emb gate head net nbr sidx nidx cidx.
  apply (crystal_isolation net [1; 1; 1; 1; 1] [[1]; [2]; [3]; [4]; [5]]
           [[1]; [2]; [30]; [40]; [50]] nbr sidx nidx cidx 0).
  - repeat constructor.
  - constructor; [|constructor]. exists (λ _, 0). reflexivity.
  - exists (λ _, 0). reflexivity.
  - intros m Hm. injection Hm as <-. exists (λ row, row). reflexivity.
  - intros [|[|[|[|[|[|j]]]]]] a b Ha Hb Hc; simpl in *; simplify_eq;
      try reflexivity; discriminate.
  - reflexivity.
  - repeat constructor.
  - intros [|[|[|[|[|a]]]]] Ha; simpl in *; try reflexivity; discriminate.
Defined.

(** ** Training mode: normalisation couples the crystals of a batch *)

Lemma elu_0 : elu 0 = 0.
Proof.
  unfold elu. rewrite exp_0, Rminus_diag.
  unfold Rmax, Rmin. destruct (Rle_dec 0 0); lra.
Qed.

Lemma elu_pos v : 0 < v → elu v = v.
Proof.
  intros Hv. unfold elu. pose proof (exp_increasing 0 v Hv) as He.
  rewrite exp_0 in He.
  rewrite Rmax_right, Rmin_left by lra. lra.
Qed.

Lemma sigmoid_pos v : 0 < sigmoid v.
Proof.
  unfold sigmoid. pose proof (exp_pos (- v)).
  apply Rdiv_lt_0_compat; lra.
Qed.

(** Normalisation of the first of two values with their own statistics, as
    the training-mode BatchNorm1d of the example below computes it. *)
Lemma normalize_pair_equal x s : s ≠ 0 →
  (x - BatchNorm1d.mean [x; x]) / s * 1 + 0 = 0.
Proof.
  intros Hs. unfold BatchNorm1d.mean, Rsum. simpl. field. done.
Qed.

Lemma two_atom_batch (b : R) :
  let bn := {| BatchNorm1d.num_features := 1; BatchNorm1d.bn_eps := 1e-5;
               BatchNorm1d.weight := [1]; BatchNorm1d.bias := [0];
               BatchNorm1d.running_mean := [0]; BatchNorm1d.running_var := [1];
               BatchNorm1d.training := true |} in
  let lin_f := {| Linear.in_features := 3; Linear.out_features := 1;
                  Linear.weight := [[0; 0; 0]]; Linear.bias := [0] |} in
  let lin_c := {| Linear.in_features := 3; Linear.out_features := 1;
                  Linear.weight := [[1; 0; 0]]; Linear.bias := [0] |} in
  let emb := {| Linear.in_features := 1; Linear.out_features := 1;
                Linear.weight := [[1]]; Linear.bias := [0] |} in
  let gate := {| GlobalAttention.gate_nn := λ x, (λ _ : vec, 0) <$> x |} in
  let head := {| CompositionNet.truthy := true;
                 CompositionNet.call := λ X, Ok X |} in
  let net := CompositionNet.init emb [(lin_f, bn, lin_c, bn)] 1 gate gate 1
               (Some head) in
  let k := 1 * exp (0 - 0) / (1 * exp (0 - 0) + 0 + eps) in
  ∃ f row1,
    CompositionNet.forward net [1; 1] [[1]; [b]] [[0]; [0]]
      [0; 1]%nat [0; 1]%nat [0; 1]%nat =
    Ok [[k * (k * (sigmoid f *
                   elu ((1 - BatchNorm1d.mean [1; b])
                        / sqrt (BatchNorm1d.var [1; b] + 1e-5) * 1 + 0)) + 0) + 0];
        row1].
Proof.
  intros bn lin_f lin_c emb gate head net k.
  unfold CompositionNet.forward, CompositionNet.crystal_features.
  rewrite Linear_forward_ok, bind_Ok by reflexivity.
  change (Linear.apply_row (CompositionNet.embedding net) <$> [[1]; [b]])
    with [[1 * 1 + 0 + 0]; [b * 1 + 0 + 0]].
  replace (1 * 1 + 0 + 0) with 1 by lra.
  replace (b * 1 + 0 + 0) with b by lra.
  cbn [CompositionNet.message_passing CompositionNet.graphs net
       CompositionNet.init fmap list_fmap].
  unfold MessageLayer.forward.
  change (gather [1; 1] [0; 1]%nat) with (Ok [1; 1]).
  rewrite bind_Ok.
  change (gather [[1]; [b]] [0; 1]%nat) with (Ok [[1]; [b]]).
  rewrite !bind_Ok.
  change (cat3 [[1]; [b]] [[1]; [b]] [[0]; [0]])
    with (Ok [[1; 1; 0]; [b; b; 0]]).
  rewrite bind_Ok.
  rewrite !Linear_forward_ok, bind_Ok by reflexivity.
  rewrite BatchNorm1d_forward_train, !bind_Ok by (reflexivity || (simpl; lia)).
  rewrite BatchNorm1d_forward_train, bind_Ok by (reflexivity || (simpl; lia)).
  rewrite forward_segments, bind_Ok by reflexivity.
  cbn [CompositionNet.message_passing]. rewrite bind_Ok.
  rewrite forward_segments, bind_Ok by reflexivity.
  cbn [CompositionNet.getattr_output_nn CompositionNet.output_nn net
       CompositionNet.init CompositionNet.truthy head CompositionNet.call].
  rewrite bind_Ok.
  cbn [CompositionNet.truthy head CompositionNet.call].
  simpl.
  replace (dot [1; 1; 0] [1; 0; 0] + 0) with 1 by (unfold dot, Rsum; simpl; lra).
  replace (dot [b; b; 0] [1; 0; 0] + 0) with b by (unfold dot, Rsum; simpl; lra).
  eexists _, _. reflexivity.
Qed.

(** C6, as stated, fails: a fresh network is in training mode, where each
    BatchNorm1d normalises with the statistics of the whole batch.  Two
    crystals of one atom each, every atom bonded to itself only; changing the
    feature of the atom of crystal 1 from 1 to -1 changes row 0 of the
    result. *)
Lemma training_mode_couples_crystals :
  let bn := {| BatchNorm1d.num_features := 1; BatchNorm1d.bn_eps := 1e-5;
               BatchNorm1d.weight := [1]; BatchNorm1d.bias := [0];
               BatchNorm1d.running_mean := [0]; BatchNorm1d.running_var := [1];
               BatchNorm1d.training := true |} in
  let lin_f := {| Linear.in_features := 3; Linear.out_features := 1;
                  Linear.weight := [[0; 0; 0]]; Linear.bias := [0] |} in
  let lin_c := {| Linear.in_features := 3; Linear.out_features := 1;
                  Linear.weight := [[1; 0; 0]]; Linear.bias := [0] |} in
  let emb := {| Linear.in_features := 1; Linear.out_features := 1;
                Linear.weight := [[1]]; Linear.bias := [0] |} in
  let gate := {| GlobalAttention.gate_nn := λ x, (λ _ : vec, 0) <$> x |} in
  let head := {| CompositionNet.truthy := true;
                 CompositionNet.call := λ X, Ok X |} in
  let net := CompositionNet.init emb [(lin_f, bn, lin_c, bn)] 1 gate gate 1
               (Some head) in
  let self_fea_idx := [0; 1]%nat in
  let nbr_fea_idx := [0; 1]%nat in
  let crystal_atom_idx := [0; 1]%nat in
  (∀ j a b, self_fea_idx !! j = Some a → nbr_fea_idx !! j = Some b →
            crystal_atom_idx !! a = crystal_atom_idx !! b) ∧
  [[1]; [1]] !! 0%nat = [[1]; [-1]] !! 0%nat ∧
  row_of 0 (CompositionNet.forward net [1; 1] [[1]; [1]] [[0]; [0]]
              self_fea_idx nbr_fea_idx crystal_atom_idx) = Some (Some [0]) ∧
  ∃ v, row_of 0 (CompositionNet.forward net [1; 1] [[1]; [-1]] [[0]; [0]]
                   self_fea_idx nbr_fea_idx crystal_atom_idx) = Some (Some [v]) ∧
       0 < v.
Proof.
  intros bn lin_f lin_c emb gate head net sidx nidx cidx.
  subst bn lin_f lin_c emb gate head net sidx nidx cidx.
  pose proof eps_pos as He.
  assert (Hk : 0 < 1 * exp (0 - 0) / (1 * exp (0 - 0) + 0 + eps)).
  { rewrite Rminus_diag, exp_0. apply Rdiv_lt_0_compat; lra. }
  split_and!.
  - intros j a b Ha Hb. by simplify_eq.
  - reflexivity.
  - pose proof (two_atom_batch 1) as Hrun. cbv zeta in Hrun.
    destruct Hrun as (f & row1 & ->). simpl. do 3 f_equal.
    rewrite normalize_pair_equal, elu_0; [lra|].
    apply Rgt_not_eq, sqrt_lt_R0.
    unfold BatchNorm1d.var, BatchNorm1d.mean, Rsum. simpl. lra.
  - pose proof (two_atom_batch (-1)) as Hrun. cbv zeta in Hrun.
    destruct Hrun as (f & row1 & ->). simpl.
    eexists. split; [reflexivity|].
    set (k := 1 * exp (0 - 0) / (1 * exp (0 - 0) + 0 + eps)) in *.
    assert (Hmean : BatchNorm1d.mean [1; -1] = 0)
      by (unfold BatchNorm1d.mean, Rsum; simpl; lra).
    assert (Hvar : BatchNorm1d.var [1; -1] = 1)
      by (unfold BatchNorm1d.var; rewrite Hmean; unfold Rsum; simpl; lra).
    rewrite Hmean, Hvar.
    assert (Hs : 0 < sqrt (1 + 1e-5)) by (apply sqrt_lt_R0; lra).
    assert (Harg : 0 < (1 - 0) / sqrt (1 + 1e-5) * 1 + 0).
    { rewrite Rminus_0_r, Rmult_1_r, Rplus_0_r. apply Rdiv_lt_0_compat; lra. }
    rewrite elu_pos by exact Harg.
    pose proof (sigmoid_pos f) as Hf.
    set (t := (1 - 0) / sqrt (1 + 1e-5) * 1 + 0) in *.
    set (s := sigmoid f) in *.
    assert (Hst : 0 < s * t) by (by apply Rmult_lt_0_compat).
    assert (Hkst : 0 < k * (s * t)) by (by apply Rmult_lt_0_compat).
    assert (Hkk : 0 < k * (k * (s * t) + 0)) by (apply Rmult_lt_0_compat; lra).
    lra.
Qed.

(** * Further properties of the pooling and of the layers *)

(** ** When GlobalAttention.forward raises *)

Lemma broadcast_mul_expand w e :
  broadcast_mul w e =
  match expand_weights (length e) w with
  | Some w' => Ok (zip_with Rmult w' e)
  | None =>
      match e with
      | [b0] => Ok ((λ v, v * b0) <$> w)
      | _ => Raise RuntimeError
      end
  end.
Proof.
  unfold broadcast_mul, expand_weights.
  destruct (length w =? length e)%nat; [done|].
  destruct w as [|w0 [|w1 w]]; try done.
  by rewrite zip_with_replicate_l.
Qed.

Lemma length_scatter_into {A B} (op : B → A → B) out src index :
  length (scatter_into op out src index) = length out.
Proof.
  unfold scatter_into. generalize (zip index src) as ps. intros ps. revert out.
  induction ps as [|p ps IH]; intros out; [done|].
  simpl. by rewrite IH, length_alter.
Qed.

Lemma scatter_Ok_length {A B} (op : B → A → B) fill src index out :
  scatter op fill src index = Ok out →
  length index = length src ∧ length out = dim_size index.
Proof.
  unfold scatter. destruct (Nat.eqb_spec (length index) (length src)); [|done].
  intros [= <-]. by rewrite length_scatter_into, length_replicate.
Qed.

Lemma forward_Ok_rows self x index w out :
  GlobalAttention.forward self x index w = Ok out → length out = dim_size index.
Proof.
  unfold GlobalAttention.forward. intros H.
  destruct (negb _); [discriminate|].
  apply bind_Ok_inv in H as (? & _ & H).
  apply bind_Ok_inv in H as (? & _ & H).
  apply bind_Ok_inv in H as (? & _ & H).
  apply bind_Ok_inv in H as (? & _ & H).
  apply bind_Ok_inv in H as (? & _ & H).
  unfold scatter_add_rows in H. by apply scatter_Ok_length in H as [_ ?].
Qed.

Lemma forward_expand self x index w :
  length (GlobalAttention.gate_nn self x) = length x →
  length index = length x →
  GlobalAttention.forward self x index w =
  match expand_weights (length x) w with
  | Some w' =>
      Ok ((λ s, pool_segment (width x)
                  (segment s index (GlobalAttention.gate_nn self x))
                  (segment s index w') (segment s index x))
            <$> seq 0 (dim_size index))
  | None => Raise RuntimeError
  end.
Proof.
  intros Hg Hi.
  destruct (expand_weights (length x) w) as [w'|] eqn:Hw.
  - assert (Hw' : length w' = length x).
    { unfold expand_weights in Hw.
      destruct (Nat.eqb_spec (length w) (length x)); [congruence|].
      destruct w as [|w0 [|]]; try discriminate.
      injection Hw as <-. apply length_replicate. }
    rewrite <- (forward_segments self x index w') by done.
    unfold GlobalAttention.forward. rewrite Hg, Nat.eqb_refl. cbn [negb].
    rewrite scatter_max_ok by congruence. rewrite !bind_Ok.
    rewrite gather_scattered. rewrite !bind_Ok.
    fold (stable_logit (GlobalAttention.gate_nn self x) index).
    replace (broadcast_mul w (exp <$> stable_logit (GlobalAttention.gate_nn self x) index))
      with (broadcast_mul w' (exp <$> stable_logit (GlobalAttention.gate_nn self x) index));
      [done|].
    rewrite (broadcast_mul_same w') by
      (rewrite length_fmap, length_stable_logit; congruence).
    rewrite broadcast_mul_expand, length_fmap, length_stable_logit, Hi, Hw
      by congruence.
    reflexivity.
  - unfold GlobalAttention.forward. rewrite Hg, Nat.eqb_refl. cbn [negb].
    rewrite scatter_max_ok, bind_Ok by congruence.
    rewrite gather_scattered, bind_Ok.
    fold (stable_logit (GlobalAttention.gate_nn self x) index).
    rewrite broadcast_mul_expand, length_fmap, length_stable_logit, Hi, Hw
      by congruence.
    assert (Hlen : length w ≠ length x).
    { unfold expand_weights in Hw.
      by destruct (Nat.eqb_spec (length w) (length x)). }
    destruct (exp <$> stable_logit (GlobalAttention.gate_nn self x) index)
      as [|b0 [|b1 e]] eqn:He; try done.
    rewrite bind_Ok. unfold scatter_add.
    rewrite scatter_length_mismatch; [done|].
    rewrite length_fmap.
    assert (length x = 1%nat); [|congruence].
    rewrite <- Hi, <- (length_stable_logit (GlobalAttention.gate_nn self x) index)
      by congruence.
    by rewrite <- (length_fmap exp), He.
Qed.

Lemma expand_weights_Some n w :
  is_Some (expand_weights n w) ↔ length w = n ∨ length w = 1%nat.
Proof.
  unfold expand_weights.
  destruct (Nat.eqb_spec (length w) n) as [|Hne].
  - split; [by left|by eexists].
  - destruct w as [|w0 [|w1 w]]; simpl in *.
    + split; [by intros [? [=]]|]. intros [|]; [done|discriminate].
    + split; [by right|by eexists].
    + split; [by intros [? [=]]|]. intros [|]; [done|discriminate].
Qed.

(** X1. The call raises AssertionError exactly when the gate network returns
    a number of logits other than the number of rows of x; otherwise it
    raises RuntimeError exactly when index has another number of rows than x
    or weights has neither that number of rows nor a single row; in all
    other cases it returns 1 + max(index) rows (none for an empty index). *)
Theorem forward_raises_iff self x index w :
  let n := length x in
  let gate_ok := length (GlobalAttention.gate_nn self x) = n in
  let shapes_ok := length index = n ∧ (length w = n ∨ length w = 1%nat) in
  (GlobalAttention.forward self x index w = Raise AssertionError ↔ ¬ gate_ok) ∧
  (GlobalAttention.forward self x index w = Raise RuntimeError ↔
     gate_ok ∧ ¬ shapes_ok) ∧
  ((∃ out, GlobalAttention.forward self x index w = Ok out ∧
           length out = dim_size index) ↔ gate_ok ∧ shapes_ok).
Proof.
  intros n gate_ok shapes_ok. subst n gate_ok shapes_ok.
  destruct (decide (length (GlobalAttention.gate_nn self x) = length x)) as [Hg|Hg].
  - destruct (decide (length index = length x)) as [Hi|Hi].
    + rewrite forward_expand by done.
      pose proof (expand_weights_Some (length x) w) as Hw.
      destruct (expand_weights (length x) w) as [w'|].
      * assert (length w = length x ∨ length w = 1%nat) by (apply Hw; by eexists).
        split_and!; split; try done; try tauto.
        intros _. eexists. split; [done|]. by rewrite length_fmap, length_seq.
      * assert (¬ (length w = length x ∨ length w = 1%nat))
          by (intros H; apply Hw in H as [? [=]]).
        split_and!; split; try done; try tauto.
        by intros (? & [=] & _).
    + assert (Hr : GlobalAttention.forward self x index w = Raise RuntimeError).
      { unfold GlobalAttention.forward. rewrite Hg, Nat.eqb_refl. cbn [negb].
        unfold scatter_max. rewrite scatter_length_mismatch by congruence. done. }
      rewrite Hr. split_and!; split; try done; try tauto.
      by intros (? & [=] & _).
  - assert (Hr : GlobalAttention.forward self x index w = Raise AssertionError).
    { unfold GlobalAttention.forward.
      by destruct (Nat.eqb_spec (length (GlobalAttention.gate_nn self x)) (length x)). }
    rewrite Hr. split_and!; split; try done; try tauto.
    by intros (? & [=] & _).
Qed.

(** X2. A weight column with a single row is broadcast: the call behaves as
    with that weight repeated for every row of x. *)
Theorem forward_single_weight self x index w0 :
  GlobalAttention.forward self x index [w0] =
  GlobalAttention.forward self x index (replicate (length x) w0).
Proof.
  destruct (decide (length (GlobalAttention.gate_nn self x) = length x)) as [Hg|Hg].
  - destruct (decide (length index = length x)) as [Hi|Hi].
    + rewrite !forward_expand by done. unfold expand_weights.
      rewrite length_replicate, Nat.eqb_refl. cbn [length].
      destruct (Nat.eqb_spec 1 (length x)) as [<-|]; reflexivity.
    + unfold GlobalAttention.forward. rewrite Hg, Nat.eqb_refl. cbn [negb].
      unfold scatter_max. rewrite scatter_length_mismatch by congruence. done.
  - unfold GlobalAttention.forward.
    by destruct (Nat.eqb_spec (length (GlobalAttention.gate_nn self x)) (length x)).
Qed.

(** ** Shape, locality and bounds of the pooled rows *)

(** X3. On a rectangular x, every returned row has the width of x. *)
Theorem forward_row_width self x index weights :
  Forall (λ row : vec, length row = width x) x →
  length index = length x →
  length weights = length x →
  length (GlobalAttention.gate_nn self x) = length x →
  ∃ out, GlobalAttention.forward self x index weights = Ok out ∧
         Forall (λ row : vec, length row = width x) out.
Proof.
  intros Hx Hi Hw Hg. eexists. split; [by apply forward_segments|].
  apply Forall_fmap, Forall_forall. intros s _. simpl.
  by apply length_pool_segment, Forall_segment.
Qed.

Lemma forward_row_width_witness :
  ∃ out, GlobalAttention.forward
           {| GlobalAttention.gate_nn := λ x, (λ row, row !!! 0%nat) <$> x |}
           [[1; 2]; [3; 4]; [5; 6]] [0; 2; 0]%nat [1; 1; 2] = Ok out ∧
         Forall (λ row : vec, length row = 2%nat) out.
Proof.
  refine (forward_row_width
            {| GlobalAttention.gate_nn := λ x, (λ row, row !!! 0%nat) <$> x |}
            [[1; 2]; [3; 4]; [5; 6]] [0; 2; 0]%nat [1; 1; 2]
            _ eq_refl eq_refl eq_refl).
  repeat constructor.
Defined.

(** X4. With a gate network that acts row by row, the pooled row of segment s
    depends only on the member rows of s: two calls with the same index whose
    features and weights agree on the members of s return the same row s. *)
Theorem forward_segment_local self x x' index w w' s :
  rowwise_gate self →
  length index = length x → length x' = length x →
  length w = length x → length w' = length x →
  width x' = width x →
  (∀ r, index !! r = Some s → x' !! r = x !! r ∧ w' !! r = w !! r) →
  ∃ out out', GlobalAttention.forward self x index w = Ok out ∧
              GlobalAttention.forward self x' index w' = Ok out' ∧
              out' !! s = out !! s.
Proof.
  intros [g Hg] Hi Hx' Hw Hw' Hwidth Hsame.
  destruct (forward_lookup self x index w s) as (out & Hout & _ & Hrow);
    [rewrite ?Hg, ?length_fmap; congruence..|].
  destruct (forward_lookup self x' index w' s) as (out' & Hout' & _ & Hrow');
    [rewrite ?Hg, ?length_fmap; congruence..|].
  exists out, out'. split_and!; [done..|].
  rewrite Hrow, Hrow'. destruct (decide (s < dim_size index)%nat); [|done].
  rewrite !Hg, !segment_fmap, Hwidth.
  rewrite (segment_ext s index x' x)
    by (congruence || (intros r Hr; by apply Hsame)).
  rewrite (segment_ext s index w' w)
    by (congruence || (intros r Hr; by apply Hsame)).
  done.
Qed.

Lemma forward_segment_local_witness :
  ∃ out out',
    GlobalAttention.forward
      {| GlobalAttention.gate_nn := λ x, (λ row, row !!! 0%nat) <$> x |}
      [[1]; [3]; [5]] [0; 2; 0]%nat [1; 1; 2] = Ok out ∧
    GlobalAttention.forward
      {| GlobalAttention.gate_nn := λ x, (λ row, row !!! 0%nat) <$> x |}
      [[1]; [30]; [5]] [0; 2; 0]%nat [1; 7; 2] = Ok out' ∧
    out' !! 0%nat = out !! 0%nat.
Proof.
  refine (forward_segment_local
            {| GlobalAttention.gate_nn := λ x, (λ row, row !!! 0%nat) <$> x |}
            [[1]; [3]; [5]] [[1]; [30]; [5]] [0; 2; 0]%nat [1; 1; 2] [1; 7; 2] 0
            _ eq_refl eq_refl eq_refl eq_refl eq_refl _).
  - exists (λ row, row !!! 0%nat). reflexivity.
  - intros [|[|[|r]]] Hr; simpl in Hr; try discriminate; done.
Defined.

Lemma vadd_zeros_r d v : length v = d → vadd v (zeros d) = v.
Proof. intros Hv. rewrite vadd_comm. by apply vadd_zeros_l. Qed.

(** X5. A segment with a single member row r returns that row scaled by
    weights[r] / (weights[r] + eps), whatever its gate logit is. *)
Theorem forward_single_member self x index weights s r row wr :
  length index = length x →
  length weights = length x →
  length (GlobalAttention.gate_nn self x) = length x →
  members s index = [r] →
  x !! r = Some row → weights !! r = Some wr →
  length row = width x →
  ∃ out, GlobalAttention.forward self x index weights = Ok out ∧
         out !! s = Some (scale (wr / (wr + eps)) row).
Proof.
  intros Hi Hw Hg Hm Hrow Hwr Hlen.
  destruct (forward_lookup self x index weights s Hi Hw Hg) as (out & Hout & _ & Hs).
  exists out. split; [done|]. rewrite Hs.
  assert (Hr : index !! r = Some s) by (apply elem_of_members; rewrite Hm; left).
  rewrite decide_True
    by (apply index_lt_dim_size; by eapply list_elem_of_lookup_2).
  f_equal.
  rewrite (segment_members s index (GlobalAttention.gate_nn self x)),
    (segment_members s index weights), (segment_members s index x), Hm
    by congruence.
  cbn [fmap list_fmap].
  rewrite (list_lookup_total_correct _ _ _ Hrow),
    (list_lookup_total_correct _ _ _ Hwr).
  unfold pool_segment, segment_coeff, segment_unnorm. simpl.
  unfold Rsum. simpl. rewrite Rminus_diag, exp_0, Rmult_1_r, Rplus_0_r.
  apply vadd_zeros_r. unfold scale. by rewrite length_fmap.
Qed.

Lemma forward_single_member_witness :
  ∃ out, GlobalAttention.forward
           {| GlobalAttention.gate_nn := λ x, (λ row, row !!! 0%nat) <$> x |}
           [[1]; [3]; [5]] [0; 2; 0]%nat [1; 4; 2] = Ok out ∧
         out !! 2%nat = Some (scale (4 / (4 + eps)) [3]).
Proof.
  exact (forward_single_member
           {| GlobalAttention.gate_nn := λ x, (λ row, row !!! 0%nat) <$> x |}
           [[1]; [3]; [5]] [0; 2; 0]%nat [1; 4; 2] 2 1 [3] 4
           eq_refl eq_refl eq_refl eq_refl eq_refl eq_refl eq_refl).
Defined.

(** X6. Indexing a scatter result by the index it was scattered with never
    raises IndexError: row r of the gathered column is the reduction of the
    segment of index[r], for the sum and for the maximum. *)
Theorem scatter_gather_back src index :
  length index = length src →
  ∃ sums maxs,
    scatter_add src index = Ok sums ∧
    gather sums index = Ok ((λ i, Rsum (segment i index src)) <$> index) ∧
    scatter_max src index = Ok maxs ∧
    gather maxs index = Ok ((λ i, Rmax_list (segment i index src)) <$> index).
Proof.
  intros Hlen. eexists _, _.
  split_and!; [by apply scatter_add_ok|apply gather_scattered
              |by apply scatter_max_ok|apply gather_scattered].
Qed.

Lemma scatter_gather_back_witness :
  ∃ sums maxs,
    scatter_add [10; 20; 30] [0; 2; 0]%nat = Ok sums ∧
    gather sums [0; 2; 0]%nat =
      Ok ((λ i, Rsum (segment i [0; 2; 0]%nat [10; 20; 30])) <$> [0; 2; 0]%nat) ∧
    scatter_max [10; 20; 30] [0; 2; 0]%nat = Ok maxs ∧
    gather maxs [0; 2; 0]%nat =
      Ok ((λ i, Rmax_list (segment i [0; 2; 0]%nat [10; 20; 30])) <$> [0; 2; 0]%nat).
Proof. exact (scatter_gather_back [10; 20; 30] [0; 2; 0]%nat eq_refl). Defined.

(** ** Non-negative weights: the range of the coefficients *)

Lemma segment_coeff_nonneg G W :
  Forall (λ t, 0 <= t) W → Forall (λ t, 0 <= t) (segment_coeff G W).
Proof.
  intros HW. pose proof (segment_unnorm_nonneg G W HW) as HU.
  pose proof (Rsum_nonneg _ HU) as Hs. pose proof eps_pos as He.
  unfold segment_coeff. apply Forall_fmap.
  eapply Forall_impl; [exact HU|]. intros u Hu. simpl.
  apply Rmult_le_pos; [done|]. apply Rlt_le, Rinv_0_lt_compat. lra.
Qed.

Lemma segment_coeff_sum_lt_1 G W :
  Forall (λ t, 0 <= t) W → 0 <= Rsum (segment_coeff G W) < 1.
Proof.
  intros HW. pose proof (Rsum_nonneg _ (segment_coeff_nonneg G W HW)) as H0.
  split; [done|]. rewrite segment_coeff_sum.
  pose proof (Rsum_nonneg _ (segment_unnorm_nonneg G W HW)) as Hs.
  pose proof eps_pos as He.
  apply Rmult_lt_reg_r with (Rsum (segment_unnorm G W) + eps); [lra|].
  unfold Rdiv. rewrite Rmult_assoc, Rinv_l by lra. lra.
Qed.

(** X8. With non-negative weights every attention coefficient, the value of
    [gate] after line 235, lies between 0 and 1. *)
Theorem coeff_range g w index :
  length g = length index →
  length w = length index →
  Forall (λ t, 0 <= t) w →
  Forall (λ c, 0 <= c <= 1) (coeff g w index).
Proof.
  intros Hg Hw Hw0. apply Forall_lookup. intros r c Hc.
  assert (Hr : (r < length index)%nat).
  { rewrite <- (length_coeff g w index) by done. by eapply lookup_lt_Some. }
  destruct (lookup_lt_is_Some_2 index r Hr) as [s Hs].
  pose proof (elem_of_segment s index _ r c Hc Hs) as Hin.
  rewrite segment_of_coeff in Hin by done.
  pose proof (Forall_segment (λ t, 0 <= t) s index w Hw0) as HW.
  pose proof (segment_coeff_nonneg (segment s index g) _ HW) as Hnn.
  pose proof (segment_coeff_sum_lt_1 (segment s index g) _ HW) as Hsum.
  pose proof (Rsum_ge_elem_of _ _ Hnn Hin) as Hle.
  split; [|lra]. by eapply (proj1 (Forall_forall _ _) Hnn).
Qed.

Lemma coeff_range_witness :
  Forall (λ c, 0 <= c <= 1) (coeff [1; 3; 5] [1; 0; 2] [0; 2; 0]%nat).
Proof.
  refine (coeff_range [1; 3; 5] [1; 0; 2] [0; 2; 0]%nat eq_refl eq_refl _).
  repeat constructor; lra.
Defined.

(** ** The interleaving of the segments does not matter *)

Lemma elem_of_index_segment `{Inhabited A} s index (l : list A) :
  length l = length index → s ∈ index ↔ segment s index l ≠ [].
Proof.
  intros Hlen. split.
  - intros [r Hr]%list_elem_of_lookup.
    destruct (lookup_lt_is_Some_2 l r) as [v Hv].
    { rewrite Hlen. by eapply lookup_lt_Some. }
    intros Hnil. pose proof (elem_of_segment s index l r v Hv Hr) as Hin.
    rewrite Hnil in Hin. by apply elem_of_nil in Hin.
  - intros Hne. destruct (segment s index l) as [|v t] eqn:E; [done|].
    assert (Hin : v ∈ segment s index l) by (rewrite E; left).
    apply elem_of_segment_inv in Hin as (r & Hr & _); [|done].
    by eapply list_elem_of_lookup_2.
Qed.

Lemma dim_size_same_elements index index' :
  (∀ s, s ∈ index ↔ s ∈ index') → dim_size index = dim_size index'.
Proof.
  intros Hel. destruct index as [|i index], index' as [|i' index'].
  - done.
  - exfalso. eapply elem_of_nil, Hel. left.
  - exfalso. eapply elem_of_nil, Hel. left.
  - unfold dim_size. f_equal. apply Nat.le_antisymm.
    + apply max_list_elem_of_le, Hel, max_list_elem_of. done.
    + apply max_list_elem_of_le, Hel, max_list_elem_of. done.
Qed.

Lemma segment_zip_pairs s index (w : list R) (x : matrix) :
  length w = length index → length x = length index →
  (segment s index (zip w x)).*1 = segment s index w ∧
  (segment s index (zip w x)).*2 = segment s index x.
Proof.
  intros Hw Hx. rewrite <- !segment_fmap.
  by rewrite fst_zip, snd_zip by lia.
Qed.

(** X9. With a gate network that acts row by row, the result depends only on
    each segment's own sequence of member rows and weights: when every
    segment id has the same (weight, row) members in the same order in two
    batches, the results are equal, however the rows of different segments
    are interleaved. *)
Theorem forward_interleaving_invariant self x x' index index' w w' :
  rowwise_gate self →
  Forall (λ row : vec, length row = width x) x →
  length index = length x → length w = length x →
  length index' = length x' → length w' = length x' →
  (∀ s, segment s index' (zip w' x') = segment s index (zip w x)) →
  GlobalAttention.forward self x' index' w' =
  GlobalAttention.forward self x index w.
Proof.
  intros [g Hg] Hrect Hi Hw Hi' Hw' Hseg.
  assert (Hel : ∀ s, s ∈ index' ↔ s ∈ index).
  { intros s.
    rewrite (elem_of_index_segment s index' (zip w' x')),
      (elem_of_index_segment s index (zip w x)) by (rewrite length_zip; lia).
    by rewrite Hseg. }
  assert (Hsx : ∀ s, segment s index' x' = segment s index x).
  { intros s.
    destruct (segment_zip_pairs s index w x) as [_ <-]; [lia..|].
    destruct (segment_zip_pairs s index' w' x') as [_ <-]; [lia..|].
    by rewrite Hseg. }
  assert (Hsw : ∀ s, segment s index' w' = segment s index w).
  { intros s.
    destruct (segment_zip_pairs s index w x) as [<- _]; [lia..|].
    destruct (segment_zip_pairs s index' w' x') as [<- _]; [lia..|].
    by rewrite Hseg. }
  assert (Hwidth : width x' = width x).
  { destruct x' as [|row' x'].
    - destruct index' as [|i' index']; [|done].
      destruct index as [|i index]; [by destruct x|].
      exfalso. eapply elem_of_nil, Hel. left.
    - destruct index' as [|i' index']; [done|]. simpl.
      assert (Hin : row' ∈ segment i' (i' :: index') (row' :: x')).
      { by apply (elem_of_segment _ _ _ 0%nat). }
      rewrite Hsx in Hin.
      apply elem_of_segment_inv in Hin as (r & _ & Hr); [|lia].
      by apply (proj1 (Forall_lookup _ _) Hrect r). }
  rewrite !forward_segments by (rewrite ?Hg, ?length_fmap; congruence).
  rewrite !Hg, Hwidth, (dim_size_same_elements _ _ Hel). f_equal.
  apply list_fmap_ext. intros _ s _. rewrite !segment_fmap.
  by rewrite Hsx, Hsw.
Qed.

Lemma forward_interleaving_invariant_witness :
  GlobalAttention.forward
    {| GlobalAttention.gate_nn := λ x, (λ row, row !!! 0%nat) <$> x |}
    [[3]; [1]; [5]] [2; 0; 0]%nat [4; 1; 2] =
  GlobalAttention.forward
    {| GlobalAttention.gate_nn := λ x, (λ row, row !!! 0%nat) <$> x |}
    [[1]; [3]; [5]] [0; 2; 0]%nat [1; 4; 2].
Proof.
  refine (forward_interleaving_invariant
            {| GlobalAttention.gate_nn := λ x, (λ row, row !!! 0%nat) <$> x |}
            [[1]; [3]; [5]] [[3]; [1]; [5]] [0; 2; 0]%nat [2; 0; 0]%nat
            [1; 4; 2] [4; 1; 2] _ _ eq_refl eq_refl eq_refl eq_refl _).
  - exists (λ row, row !!! 0%nat). reflexivity.
  - repeat constructor.
  - intros [|[|[|s]]]; reflexivity.
Defined.

(** ** WeightedMeanPooling.forward *)



(** ** MessageLayer.forward: bad indices, single bonds, row count *)

Lemma gather_raises {A} (t : list A) index :
  Exists (λ i, (length t ≤ i)%nat) index → gather t index = Raise IndexError.
Proof.
  induction 1 as [i index Hi|i index _ IH]; simpl.
  - by rewrite (lookup_ge_None_2 t i Hi).
  - destruct (t !! i); [|done]. by rewrite IH.
Qed.

Lemma gather_total {A} (t : list A) index :
  (∃ rows, gather t index = Ok rows) ∨ gather t index = Raise IndexError.
Proof.
  destruct (decide (Exists (λ i, (length t ≤ i)%nat) index)) as [H|H].
  - right. by apply gather_raises.
  - left. apply not_Exists_Forall in H; [|apply _].
    destruct (gather_ok t index) as (rows & Hr & _); [|by exists rows].
    eapply Forall_impl; [exact H|]. intros i Hi. simpl in Hi. lia.
Qed.

(** X11. A bond that names an atom past the end of the atom batch makes the
    call raise IndexError, whether the bad index is the owner or the
    neighbour of the bond. *)
Theorem message_layer_index_error layer w X bond sidx nidx :
  length w = length X →
  Exists (λ i, (length X ≤ i)%nat) (sidx ++ nidx) →
  MessageLayer.forward layer w X bond sidx nidx = Raise IndexError.
Proof.
  intros Hw Hbad. unfold MessageLayer.forward.
  destruct (decide (Exists (λ i, (length X ≤ i)%nat) nidx)) as [Hn|Hn].
  - rewrite (gather_raises w nidx) by by rewrite Hw. done.
  - apply Exists_app in Hbad as [Hs|]; [|done].
    destruct (gather_total w nidx) as [[nw ->]| ->]; [|done].
    destruct (gather_total X nidx) as [[NF ->]| ->]; [|done].
    rewrite !bind_Ok. by rewrite (gather_raises X sidx).
Qed.

Lemma message_layer_index_error_witness :
  MessageLayer.forward
    {| MessageLayer.atom_fea_len := 1; MessageLayer.nbr_fea_len := 1;
       MessageLayer.filter_msg :=
         {| Linear.in_features := 3; Linear.out_features := 1;
            Linear.weight := [[1; 0; 0]]; Linear.bias := [0] |};
       MessageLayer.filter_bn :=
         {| BatchNorm1d.num_features := 1; BatchNorm1d.bn_eps := 1e-5;
            BatchNorm1d.weight := [1]; BatchNorm1d.bias := [0];
            BatchNorm1d.running_mean := [0]; BatchNorm1d.running_var := [1];
            BatchNorm1d.training := true |};
       MessageLayer.core_msg :=
         {| Linear.in_features := 3; Linear.out_features := 1;
            Linear.weight := [[1; 0; 0]]; Linear.bias := [0] |};
       MessageLayer.core_bn :=
         {| BatchNorm1d.num_features := 1; BatchNorm1d.bn_eps := 1e-5;
            BatchNorm1d.weight := [1]; BatchNorm1d.bias := [0];
            BatchNorm1d.running_mean := [0]; BatchNorm1d.running_var := [1];
            BatchNorm1d.training := true |};
       MessageLayer.pooling :=
         {| GlobalAttention.gate_nn := λ x, (λ _ : vec, 0) <$> x |} |}
    [1; 1] [[1]; [2]] [[0]; [0]] [0; 2]%nat [1; 0]%nat = Raise IndexError.
Proof.
  apply message_layer_index_error; [reflexivity|].
  apply Exists_cons_tl, Exists_cons_hd. simpl. lia.
Defined.

(** X12. In training mode a batch with exactly one bond cannot be
    normalised: for valid indices and features of the declared widths the
    call raises ValueError. *)
Theorem message_layer_single_bond layer w X row sidx nidx :
  layer_built (MessageLayer.atom_fea_len layer) (MessageLayer.nbr_fea_len layer) layer →
  BatchNorm1d.training (MessageLayer.filter_bn layer) = true →
  Forall (λ r : vec, length r = MessageLayer.atom_fea_len layer) X →
  length row = MessageLayer.nbr_fea_len layer →
  length w = length X →
  length sidx = 1%nat → length nidx = 1%nat →
  Forall (λ i, (i < length X)%nat) sidx →
  Forall (λ i, (i < length X)%nat) nidx →
  MessageLayer.forward layer w X [row] sidx nidx = Raise ValueError.
Proof.
  intros (_ & _ & (Hfi & _) & _) Htrain HX Hrow Hw Hs Hn Hsi Hni.
  unfold MessageLayer.forward.
  destruct (gather_ok w nidx) as (nw & -> & Hnw & _); [by rewrite Hw|].
  destruct (gather_ok X nidx Hni) as (NF & HNF & HlNF & _).
  destruct (gather_ok X sidx Hsi) as (SF & HSF & HlSF & _).
  rewrite HNF, HSF, !bind_Ok.
  pose proof (gather_Forall _ _ _ _ HNF HX) as HwNF.
  pose proof (gather_Forall _ _ _ _ HSF HX) as HwSF.
  rewrite cat3_ok, bind_Ok by (simpl; lia).
  destruct SF as [|sf [|]]; simpl in HlSF; try lia.
  destruct NF as [|nf [|]]; simpl in HlNF; try lia.
  apply Forall_cons in HwSF as [Hsf _], HwNF as [Hnf _].
  cbn [zip_with].
  rewrite (Linear_forward_ok (MessageLayer.filter_msg layer)), bind_Ok
    by (apply has_width_Forall; constructor; [|constructor];
        rewrite !length_app; lia).
  unfold BatchNorm1d.forward. by rewrite Htrain.
Qed.

Lemma message_layer_single_bond_witness :
  MessageLayer.forward
    {| MessageLayer.atom_fea_len := 1; MessageLayer.nbr_fea_len := 1;
       MessageLayer.filter_msg :=
         {| Linear.in_features := 3; Linear.out_features := 1;
            Linear.weight := [[1; 0; 0]]; Linear.bias := [0] |};
       MessageLayer.filter_bn :=
         {| BatchNorm1d.num_features := 1; BatchNorm1d.bn_eps := 1e-5;
            BatchNorm1d.weight := [1]; BatchNorm1d.bias := [0];
            BatchNorm1d.running_mean := [0]; BatchNorm1d.running_var := [1];
            BatchNorm1d.training := true |};
       MessageLayer.core_msg :=
         {| Linear.in_features := 3; Linear.out_features := 1;
            Linear.weight := [[1; 0; 0]]; Linear.bias := [0] |};
       MessageLayer.core_bn :=
         {| BatchNorm1d.num_features := 1; BatchNorm1d.bn_eps := 1e-5;
            BatchNorm1d.weight := [1]; BatchNorm1d.bias := [0];
            BatchNorm1d.running_mean := [0]; BatchNorm1d.running_var := [1];
            BatchNorm1d.training := true |};
       MessageLayer.pooling :=
         {| GlobalAttention.gate_nn := λ x, (λ _ : vec, 0) <$> x |} |}
    [1; 1] [[1]; [2]] [[0]] [0]%nat [1]%nat = Raise ValueError.
Proof.
  apply message_layer_single_bond; try reflexivity.
  - unfold layer_built, MessageLayer.shaped. simpl.
    split_and!; try reflexivity. intros m. apply length_fmap.
  - repeat constructor.
  - repeat constructor.
  - repeat constructor.
Defined.

Lemma dim_size_full N sidx :
  Forall (λ i, (i < N)%nat) sidx →
  dim_size sidx = N ↔ N = 0%nat ∨ (N - 1)%nat ∈ sidx.
Proof.
  intros Hs. destruct sidx as [|i sidx].
  - simpl. split; [by left|]. intros [|Hin]; [done|]. by apply elem_of_nil in Hin.
  - unfold dim_size.
    pose proof (max_list_elem_of (i :: sidx) ltac:(done)) as Hmax.
    pose proof (proj1 (Forall_forall _ _) Hs _ Hmax) as Hlt. cbv beta in Hlt.
    split.
    + intros <-. right. by replace (S (max_list (i :: sidx)) - 1)%nat
        with (max_list (i :: sidx)) by lia.
    + intros [->|Hin]; [lia|].
      apply max_list_elem_of_le in Hin. lia.
Qed.

(** X13. For a layer shaped as [__init__] shapes it, features of the declared
    widths, valid bond indices and a number of bonds other than one, the call
    returns 1 + max(self_fea_idx) rows of width atom_fea_len; these are as
    many rows as there are atoms exactly when the last atom owns a bond (or
    there is no atom). *)
Theorem message_layer_rows layer w X bond sidx nidx :
  layer_built (MessageLayer.atom_fea_len layer) (MessageLayer.nbr_fea_len layer) layer →
  Forall (λ row : vec, length row = MessageLayer.atom_fea_len layer) X →
  Forall (λ row : vec, length row = MessageLayer.nbr_fea_len layer) bond →
  length w = length X →
  length sidx = length bond → length nidx = length bond →
  length bond ≠ 1%nat →
  Forall (λ i, (i < length X)%nat) sidx →
  Forall (λ i, (i < length X)%nat) nidx →
  ∃ out, MessageLayer.forward layer w X bond sidx nidx = Ok out ∧
         length out = dim_size sidx ∧
         Forall (λ row : vec, length row = MessageLayer.atom_fea_len layer) out ∧
         (length out = length X ↔
            length X = 0%nat ∨ (length X - 1)%nat ∈ sidx).
Proof.
  intros (_ & _ & Hshaped & Hfw & Hfb & Hcw & Hcb & Hgate) HX Hbond Hw Hs Hn HM
    Hsi Hni.
  destruct (MessageLayer_forward_shape layer w X bond sidx nidx)
    as (out & Hout & Hlen & Hwidth); try done.
  exists out. split_and!; [done..|].
  rewrite Hlen. by apply dim_size_full.
Qed.

Lemma message_layer_rows_witness :
  let layer :=
    {| MessageLayer.atom_fea_len := 1; MessageLayer.nbr_fea_len := 1;
       MessageLayer.filter_msg :=
         {| Linear.in_features := 3; Linear.out_features := 1;
            Linear.weight := [[1; 0; 0]]; Linear.bias := [0] |};
       MessageLayer.filter_bn :=
         {| BatchNorm1d.num_features := 1; BatchNorm1d.bn_eps := 1e-5;
            BatchNorm1d.weight := [1]; BatchNorm1d.bias := [0];
            BatchNorm1d.running_mean := [0]; BatchNorm1d.running_var := [1];
            BatchNorm1d.training := true |};
       MessageLayer.core_msg :=
         {| Linear.in_features := 3; Linear.out_features := 1;
            Linear.weight := [[1; 0; 0]]; Linear.bias := [0] |};
       MessageLayer.core_bn :=
         {| BatchNorm1d.num_features := 1; BatchNorm1d.bn_eps := 1e-5;
            BatchNorm1d.weight := [1]; BatchNorm1d.bias := [0];
            BatchNorm1d.running_mean := [0]; BatchNorm1d.running_var := [1];
            BatchNorm1d.training := true |};
       MessageLayer.pooling :=
         {| GlobalAttention.gate_nn := λ x, (λ _ : vec, 0) <$> x |} |} in
  ∃ out, MessageLayer.forward layer [1; 1; 1] [[1]; [2]; [3]] [[0]; [0]; [0]]
           [0; 1; 2]%nat [1; 0; 0]%nat = Ok out ∧
         length out = 3%nat ∧
         Forall (λ row : vec, length row = 1%nat) out ∧
         (length out = 3%nat ↔ 3%nat = 0%nat ∨ 2%nat ∈ [0; 1; 2]%nat).
Proof.
  intros layer.
  apply (message_layer_rows layer [1; 1; 1] [[1]; [2]; [3]] [[0]; [0]; [0]]
           [0; 1; 2]%nat [1; 0; 0]%nat); try reflexivity.
  - unfold layer_built, MessageLayer.shaped. simpl.
    split_and!; try reflexivity. intros m. apply length_fmap.
  - repeat constructor.
  - repeat constructor.
  - simpl. lia.
  - repeat constructor.
  - repeat constructor.
Defined.

(** ** CompositionNet.forward *)

Lemma Linear_forward_Ok_length self X Y :
  Linear.forward self X = Ok Y → length Y = length X.
Proof.
  unfold Linear.forward. destruct (has_width _ X); [|discriminate].
  intros [= <-]. apply length_fmap.
Qed.

Lemma MessageLayer_forward_Ok_rows layer w X bond sidx nidx Y :
  MessageLayer.forward layer w X bond sidx nidx = Ok Y →
  length Y = dim_size sidx.
Proof.
  unfold MessageLayer.forward. intros H.
  do 8 (apply bind_Ok_inv in H as (? & _ & H)).
  by apply forward_Ok_rows in H.
Qed.

Lemma message_passing_Ok_rows layers w X bond sidx nidx Y :
  CompositionNet.message_passing layers w X bond sidx nidx = Ok Y →
  length Y = match layers with
             | [] => length X
             | _ => dim_size sidx
             end.
Proof.
  revert X. induction layers as [|layer layers IH]; intros X H; simpl in H.
  - by injection H as <-.
  - apply bind_Ok_inv in H as (Z & HZ & H).
    apply MessageLayer_forward_Ok_rows in HZ. apply IH in H.
    destruct layers; congruence.
Qed.

(** X14. The call returns only when the atom rows that reach the crystal
    pooling are as many as the entries of crystal_atom_idx: with at least
    one message layer, 1 + max(self_fea_idx) must equal the length of
    crystal_atom_idx, so a batch whose last atom owns no bond makes the call
    raise. *)
Theorem forward_returns_only_full net w orig nbr sidx nidx cidx out :
  CompositionNet.forward net w orig nbr sidx nidx cidx = Ok out →
  match CompositionNet.graphs net with
  | [] => length orig
  | _ => dim_size sidx
  end = length cidx.
Proof.
  unfold CompositionNet.forward, CompositionNet.crystal_features. intros H.
  apply bind_Ok_inv in H as (crys & H & _).
  apply bind_Ok_inv in H as (E & HE & H).
  apply bind_Ok_inv in H as (F & HF & H).
  apply Linear_forward_Ok_length in HE.
  apply message_passing_Ok_rows in HF.
  apply forward_Ok_lengths in H as [_ H].
  destruct (CompositionNet.graphs net); congruence.
Qed.

(** X15. The call never returns the crystal features as they are: whenever
    it returns, the network was constructed with an output transform of true
    truth value, and the result is what that transform returns on the
    crystal features. *)
Theorem forward_returns_head_output embedding0 layers0 nbr_fea_len atom_gate
    crys_gate atom_fea_len output_nn w orig nbr sidx nidx cidx out :
  let net := CompositionNet.init embedding0 layers0 nbr_fea_len atom_gate
               crys_gate atom_fea_len output_nn in
  CompositionNet.forward net w orig nbr sidx nidx cidx = Ok out →
  ∃ head crys_fea,
    output_nn = Some head ∧ CompositionNet.truthy head = true ∧
    CompositionNet.crystal_features net w orig nbr sidx nidx cidx = Ok crys_fea ∧
    CompositionNet.call head crys_fea = Ok out.
Proof.
  intros net H. unfold CompositionNet.forward in H.
  apply bind_Ok_inv in H as (crys & Hcrys & H).
  apply bind_Ok_inv in H as (head & Hhead & H).
  unfold CompositionNet.getattr_output_nn in Hhead. simpl in Hhead.
  destruct output_nn as [m|]; [|discriminate].
  destruct (CompositionNet.truthy m) eqn:Hm; [|discriminate].
  injection Hhead as <-. rewrite Hm in H.
  by exists m, crys.
Qed.

Lemma forward_returns_only_full_witness :
  let bn := {| BatchNorm1d.num_features := 1; BatchNorm1d.bn_eps := 1e-5;
               BatchNorm1d.weight := [1]; BatchNorm1d.bias := [0];
               BatchNorm1d.running_mean := [0]; BatchNorm1d.running_var := [1];
               BatchNorm1d.training := true |} in
  let lin_f := {| Linear.in_features := 3; Linear.out_features := 1;
                  Linear.weight := [[0; 0; 0]]; Linear.bias := [0] |} in
  let lin_c := {| Linear.in_features := 3; Linear.out_features := 1;
                  Linear.weight := [[1; 0; 0]]; Linear.bias := [0] |} in
  let emb := {| Linear.in_features := 1; Linear.out_features := 1;
                Linear.weight := [[1]]; Linear.bias := [0] |} in
  let gate := {| GlobalAttention.gate_nn := λ x, (λ _ : vec, 0) <$> x |} in
  let head := {| CompositionNet.truthy := true;
                 CompositionNet.call := λ X, Ok X |} in
  let net := CompositionNet.init emb [(lin_f, bn, lin_c, bn)] 1 gate gate 1
               (Some head) in
  match CompositionNet.graphs net with
  | [] => length [[1]; [1]]
  | _ => dim_size [0; 1]%nat
  end = length [0; 1]%nat.
Proof.
  intros bn lin_f lin_c emb gate head net.
  destruct (two_atom_batch 1) as (f & row1 & H).
  exact (forward_returns_only_full net [1; 1] [[1]; [1]] [[0]; [0]]
           [0; 1]%nat [0; 1]%nat [0; 1]%nat _ H).
Defined.

Lemma forward_returns_head_output_witness :
  let bn := {| BatchNorm1d.num_features := 1; BatchNorm1d.bn_eps := 1e-5;
               BatchNorm1d.weight := [1]; BatchNorm1d.bias := [0];
               BatchNorm1d.running_mean := [0]; BatchNorm1d.running_var := [1];
               BatchNorm1d.training := true |} in
  let lin_f := {| Linear.in_features := 3; Linear.out_features := 1;
                  Linear.weight := [[0; 0; 0]]; Linear.bias := [0] |} in
  let lin_c := {| Linear.in_features := 3; Linear.out_features := 1;
                  Linear.weight := [[1; 0; 0]]; Linear.bias := [0] |} in
  let emb := {| Linear.in_features := 1; Linear.out_features := 1;
                Linear.weight := [[1]]; Linear.bias := [0] |} in
  let gate := {| GlobalAttention.gate_nn := λ x, (λ _ : vec, 0) <$> x |} in
  let head := {| CompositionNet.truthy := true;
                 CompositionNet.call := λ X, Ok X |} in
  let net := CompositionNet.init emb [(lin_f, bn, lin_c, bn)] 1 gate gate 1
               (Some head) in
  ∃ out head' crys_fea,
    Some head = Some head' ∧ CompositionNet.truthy head' = true ∧
    CompositionNet.crystal_features net [1; 1] [[1]; [1]] [[0]; [0]]
      [0; 1]%nat [0; 1]%nat [0; 1]%nat = Ok crys_fea ∧
    CompositionNet.call head' crys_fea = Ok out.
Proof.
  intros bn lin_f lin_c emb gate head net.
  destruct (two_atom_batch 1) as (f & row1 & H).
  eexists.
  exact (forward_returns_head_output emb [(lin_f, bn, lin_c, bn)] 1 gate gate 1
           (Some head) [1; 1] [[1]; [1]] [[0]; [0]]
           [0; 1]%nat [0; 1]%nat [0; 1]%nat _ H).
Defined.

Lemma message_passing_shape afl nfl layers w X bond sidx nidx :
  Forall (layer_built afl nfl) layers →
  Forall (λ row : vec, length row = afl) X →
  Forall (λ row : vec, length row = nfl) bond →
  length w = length X →
  length sidx = length bond → length nidx = length bond →
  length bond ≠ 1%nat →
  Forall (λ i, (i < length X)%nat) sidx →
  Forall (λ i, (i < length X)%nat) nidx →
  dim_size sidx = length X →
  ∃ Y, CompositionNet.message_passing layers w X bond sidx nidx = Ok Y ∧
       length Y = length X ∧ Forall (λ row : vec, length row = afl) Y.
Proof.
  intros Hlayers. revert X.
  induction Hlayers as [|layer layers Hl _ IH];
    intros X HX Hbond Hw Hs Hn HM Hsi Hni Hfull;
    cbn [CompositionNet.message_passing].
  - by exists X.
  - destruct Hl as (Hafl & Hnfl & Hshaped & Hfw & Hfb & Hcw & Hcb & Hgate).
    destruct (MessageLayer_forward_shape layer w X bond sidx nidx)
      as (Z & -> & HlZ & HwZ); try done; try congruence;
      try (by rewrite ?Hafl, ?Hnfl).
    rewrite bind_Ok. rewrite Hafl in HwZ.
    assert (HlZX : length Z = length X) by congruence.
    destruct (IH Z) as (Y & HY & HlY & HwY); rewrite ?HlZX; try done.
    exists Y. split_and!; [done|congruence|done].
Qed.

(** X16. For a network whose parameters have the shapes the constructor
    gives them, atom and bond features of the declared widths, valid bond
    indices, a number of bonds other than one, a last atom that owns a bond,
    and one weight and one crystal id per atom, the crystal features are
    computed without error: 1 + max(crystal_atom_idx) rows of width
    atom_fea_len. *)
Theorem crystal_features_shape afl nfl net w orig nbr sidx nidx cidx :
  Forall (λ row : vec, length row = Linear.in_features (CompositionNet.embedding net)) orig →
  length (Linear.weight (CompositionNet.embedding net)) = afl →
  length (Linear.bias (CompositionNet.embedding net)) = afl →
  Forall (layer_built afl nfl) (CompositionNet.graphs net) →
  (∀ m, length (GlobalAttention.gate_nn (CompositionNet.pooling net) m) = length m) →
  Forall (λ row : vec, length row = nfl) nbr →
  length w = length orig → length cidx = length orig →
  length sidx = length nbr → length nidx = length nbr →
  length nbr ≠ 1%nat →
  Forall (λ i, (i < length orig)%nat) sidx →
  Forall (λ i, (i < length orig)%nat) nidx →
  dim_size sidx = length orig →
  ∃ crys_fea,
    CompositionNet.crystal_features net w orig nbr sidx nidx cidx = Ok crys_fea ∧
    length crys_fea = dim_size cidx ∧
    Forall (λ row : vec, length row = afl) crys_fea.
Proof.
  intros Horig Hew Heb Hlayers Hgate Hnbr Hw Hc Hs Hn HM Hsi Hni Hfull.
  unfold CompositionNet.crystal_features.
  rewrite Linear_forward_ok, bind_Ok by by apply has_width_Forall.
  set (E := Linear.apply_row _ <$> orig).
  assert (HlE : length E = length orig) by apply length_fmap.
  assert (HwE : Forall (λ row : vec, length row = afl) E).
  { apply Forall_fmap, Forall_forall. intros row _. simpl.
    unfold Linear.apply_row. rewrite length_zip_with. lia. }
  destruct (message_passing_shape afl nfl (CompositionNet.graphs net) w E nbr
              sidx nidx) as (Y & -> & HlY & HwY); rewrite ?HlE; try done.
  rewrite bind_Ok.
  rewrite forward_segments by (rewrite ?Hgate; congruence).
  eexists. split; [done|]. split; [by rewrite length_fmap, length_seq|].
  apply Forall_fmap, Forall_forall. intros s Hs'. simpl.
  assert (Hwidth : width Y = afl).
  { destruct HwY as [|row Y' Hrow _]; [|done].
    simpl in HlY. destruct cidx; [by apply elem_of_nil in Hs'|].
    simpl in Hc. lia. }
  rewrite Hwidth. by apply length_pool_segment, Forall_segment.
Qed.

Lemma crystal_features_shape_witness :
  let bn := {| BatchNorm1d.num_features := 1; BatchNorm1d.bn_eps := 1e-5;
               BatchNorm1d.weight := [1]; BatchNorm1d.bias := [0];
               BatchNorm1d.running_mean := [0]; BatchNorm1d.running_var := [1];
               BatchNorm1d.training := true |} in
  let lin := {| Linear.in_features := 3; Linear.out_features := 1;
                Linear.weight := [[1; 0; 0]]; Linear.bias := [0] |} in
  let emb := {| Linear.in_features := 2; Linear.out_features := 1;
                Linear.weight := [[1; 1]]; Linear.bias := [0] |} in
  let gate := {| GlobalAttention.gate_nn := λ x, (λ _ : vec, 0) <$> x |} in
  let net := CompositionNet.init emb [(lin, bn, lin, bn); (lin, bn, lin, bn)]
               1 gate gate 1 None in
  ∃ crys_fea,
    CompositionNet.crystal_features net [1; 1; 1] [[1; 0]; [2; 0]; [3; 0]]
      [[0]; [0]; [0]] [0; 1; 2]%nat [1; 0; 0]%nat [0; 0; 1]%nat = Ok crys_fea ∧
    length crys_fea = 2%nat ∧
    Forall (λ row : vec, length row = 1%nat) crys_fea.
Proof.
  intros bn lin emb gate net.
  assert (Hbuilt : layer_built 1 1
            {| MessageLayer.atom_fea_len := 1; MessageLayer.nbr_fea_len := 1;
               MessageLayer.filter_msg := lin; MessageLayer.filter_bn := bn;
               MessageLayer.core_msg := lin; MessageLayer.core_bn := bn;
               MessageLayer.pooling := gate |}).
  { unfold layer_built, MessageLayer.shaped. simpl.
    split_and!; try reflexivity. intros m. apply length_fmap. }
  apply (crystal_features_shape 1 1 net [1; 1; 1] [[1; 0]; [2; 0]; [3; 0]]
           [[0]; [0]; [0]] [0; 1; 2]%nat [1; 0; 0]%nat [0; 0; 1]%nat);
    try reflexivity.
  - repeat (apply List.Forall_cons || apply List.Forall_nil); reflexivity.
  - repeat (apply List.Forall_cons || apply List.Forall_nil); exact Hbuilt.
  - intros m. apply length_fmap.
  - repeat (apply List.Forall_cons || apply List.Forall_nil); reflexivity.
  - simpl. lia.
  - repeat (apply List.Forall_cons || apply List.Forall_nil); simpl; lia.
  - repeat (apply List.Forall_cons || apply List.Forall_nil); simpl; lia.
Defined.

(** ** More on the pooled rows *)

(** X17. When the gate logits are equal within every segment, each pooled
    row is the weighted mean of its member rows up to eps: the sum of
    weights[r] / (sum of the segment's weights + eps) times x[r]. *)
Theorem constant_gate_weighted_mean self x index weights s :
  length index = length x →
  length weights = length x →
  length (GlobalAttention.gate_nn self x) = length x →
  (∀ r r' a b, index !! r = index !! r' →
               GlobalAttention.gate_nn self x !! r = Some a →
               GlobalAttention.gate_nn self x !! r' = Some b → a = b) →
  (s < dim_size index)%nat →
  ∃ out, GlobalAttention.forward self x index weights = Ok out ∧
         out !! s =
         Some (vsum (width x)
                 (zip_with scale
                    ((λ w, w / (Rsum (segment s index weights) + eps))
                       <$> segment s index weights)
                    (segment s index x))).
Proof.
  intros Hi Hw Hg Hconst Hs. eexists.
  split; [by apply forward_constant_gate|].
  by rewrite list_lookup_fmap, lookup_seq_lt.
Qed.

Lemma constant_gate_weighted_mean_witness :
  ∃ out, GlobalAttention.forward
           {| GlobalAttention.gate_nn := λ x, (λ _ : vec, 7) <$> x |}
           [[1]; [3]; [5]] [0; 2; 0]%nat [1; 4; 2] = Ok out ∧
         out !! 0%nat =
         Some (vsum 1
                 (zip_with scale
                    ((λ w, w / (Rsum (segment 0 [0; 2; 0]%nat [1; 4; 2]) + eps))
                       <$> segment 0 [0; 2; 0]%nat [1; 4; 2])
                    (segment 0 [0; 2; 0]%nat [[1]; [3]; [5]]))).
Proof.
  refine (constant_gate_weighted_mean
            {| GlobalAttention.gate_nn := λ x, (λ _ : vec, 7) <$> x |}
            [[1]; [3]; [5]] [0; 2; 0]%nat [1; 4; 2] 0
            eq_refl eq_refl eq_refl _ _).
  - intros r r' a b _ Ha Hb. cbn [GlobalAttention.gate_nn] in Ha, Hb.
    rewrite list_lookup_fmap in Ha. rewrite list_lookup_fmap in Hb.
    destruct (_ !! r), (_ !! r'); simpl in *; congruence.
  - simpl. lia.
Defined.

Lemma vsum_zero_rows d rows :
  Forall (λ row : vec, row = zeros d) rows → vsum d rows = zeros d.
Proof.
  induction 1 as [|row rows -> _ IH]; [done|].
  simpl. rewrite IH. apply vadd_zeros_l, length_replicate.
Qed.

(** X18. A segment all of whose member rows have weight 0 is pooled to the
    zero vector, whatever the features and gate logits are (x
    rectangular). *)
Theorem forward_zero_weight_segment self x index weights s :
  Forall (λ row : vec, length row = width x) x →
  length index = length x →
  length weights = length x →
  length (GlobalAttention.gate_nn self x) = length x →
  (s < dim_size index)%nat →
  Forall (λ w, w = 0) (segment s index weights) →
  ∃ out, GlobalAttention.forward self x index weights = Ok out ∧
         out !! s = Some (zeros (width x)).
Proof.
  intros Hx Hi Hw Hg Hs HW.
  destruct (forward_lookup self x index weights s Hi Hw Hg) as (out & Hout & _ & Hrow).
  exists out. split; [done|]. rewrite Hrow, decide_True by done. f_equal.
  unfold pool_segment. apply vsum_zero_rows.
  apply Forall_lookup. intros j t Hj.
  apply lookup_zip_with_Some in Hj as (c & row & -> & Hc & Hrowj).
  assert (c = 0) as ->.
  { unfold segment_coeff in Hc. rewrite list_lookup_fmap in Hc.
    destruct (segment_unnorm _ _ !! j) as [u|] eqn:Hu; [|discriminate].
    injection Hc as <-. unfold segment_unnorm in Hu.
    apply lookup_zip_with_Some in Hu as (wj & gj & -> & Hwj & _).
    rewrite (proj1 (Forall_lookup _ _) HW _ _ Hwj). unfold Rdiv. lra. }
  rewrite scale_0. f_equal.
  apply list_elem_of_lookup_2 in Hrowj.
  by apply (proj1 (Forall_forall _ _) (Forall_segment _ s index x Hx)).
Qed.

Lemma forward_zero_weight_segment_witness :
  ∃ out, GlobalAttention.forward
           {| GlobalAttention.gate_nn := λ x, (λ row, row !!! 0%nat) <$> x |}
           [[1]; [3]; [5]] [0; 2; 0]%nat [0; 4; 0] = Ok out ∧
         out !! 0%nat = Some [0].
Proof.
  refine (forward_zero_weight_segment
            {| GlobalAttention.gate_nn := λ x, (λ row, row !!! 0%nat) <$> x |}
            [[1]; [3]; [5]] [0; 2; 0]%nat [0; 4; 0] 0
            _ eq_refl eq_refl eq_refl _ _).
  - repeat constructor.
  - simpl. lia.
  - change (Forall (λ w, w = 0) [0; 0]). repeat constructor.
Defined.

(** ** One message-passing round is local *)

Lemma MessageLayer_forward_one_hop layer w X X' bond sidx nidx a Y :
  eval_mode layer →
  rowwise_gate (MessageLayer.pooling layer) →
  MessageLayer.forward layer w X bond sidx nidx = Ok Y →
  same_shape X X' →
  X !! a = X' !! a →
  (∀ j b, sidx !! j = Some a → nidx !! j = Some b → X !! b = X' !! b) →
  ∃ Y', MessageLayer.forward layer w X' bond sidx nidx = Ok Y' ∧
        Y' !! a = Y !! a.
Proof.
  intros [Hfb Hcb] Hgate HY Hshape Ha Hnbr. unfold MessageLayer.forward in *.
  set (Pin := λ i, X !! i = X' !! i).
  set (Q := λ j, sidx !! j = Some a).
  assert (HX : agree_on Pin X X') by done.
  apply bind_Ok_inv in HY as (nw & Hnw & HY). rewrite Hnw, bind_Ok.
  apply bind_Ok_inv in HY as (NF & HNF & HY).
  destruct (gather_agree Pin Q X X' nidx NF HNF HX) as (NF' & -> & HNF').
  { intros j b Hj Hq. by apply (Hnbr j b). }
  rewrite bind_Ok.
  apply bind_Ok_inv in HY as (SF & HSF & HY).
  destruct (gather_agree Pin Q X X' sidx SF HSF HX) as (SF' & -> & HSF').
  { intros j i Hj Hq. unfold Q in Hq. unfold Pin. congruence. }
  rewrite bind_Ok.
  apply bind_Ok_inv in HY as (T & HT & HY).
  destruct (cat3_agree Q _ _ _ _ _ _ HT HSF' HNF')
    as (T' & -> & HT' & Hlen1 & Hlen2 & HlenT).
  rewrite bind_Ok.
  apply bind_Ok_inv in HY as (F1 & HF1 & HY).
  destruct (Linear_forward_agree Q _ _ _ _ HF1 HT') as (F1' & -> & HF1' & _).
  rewrite bind_Ok.
  apply bind_Ok_inv in HY as (F2 & HF2 & HY).
  destruct (BatchNorm1d_forward_agree Q _ _ _ _ Hfb HF2 HF1') as (F2' & -> & HF2' & _).
  rewrite bind_Ok.
  apply bind_Ok_inv in HY as (K1 & HK1 & HY).
  destruct (Linear_forward_agree Q _ _ _ _ HK1 HT') as (K1' & -> & HK1' & _).
  rewrite bind_Ok.
  apply bind_Ok_inv in HY as (K2 & HK2 & HY).
  destruct (BatchNorm1d_forward_agree Q _ _ _ _ Hcb HK2 HK1') as (K2' & -> & HK2' & _).
  rewrite bind_Ok.
  destruct (GlobalAttention_forward_agree (λ s, s = a) Q
              (MessageLayer.pooling layer)
              (zip_with vmul ((λ row : vec, sigmoid <$> row) <$> F2)
                 ((λ row : vec, elu <$> row) <$> K2))
              (zip_with vmul ((λ row : vec, sigmoid <$> row) <$> F2')
                 ((λ row : vec, elu <$> row) <$> K2')) sidx nw Y Hgate)
    as (Y' & HY' & _ & Hrow); [| exact HY | | |].
  - apply gather_length in Hnw, HNF, HSF. congruence.
  - apply agree_on_zip_with.
    + intros u u' v v' Hu Hv. unfold vmul. rewrite !length_zip_with. congruence.
    + apply agree_on_fmap; [|done]. intros r r' Hr. by rewrite !length_fmap.
    + apply agree_on_fmap; [|done]. intros r r' Hr. by rewrite !length_fmap.
  - intros j s Hj ->. exact Hj.
  - exists Y'. split; [done|]. symmetry. by apply Hrow.
Qed.

(** X19. In evaluation mode and with a gate network that acts row by row,
    one round of message passing is local: the new row of atom a depends only
    on the old rows of a and of the neighbours of the bonds that a owns.  Two
    atom batches of the same shape that agree on those rows either both make
    the call raise, or give the same row a. *)
Theorem message_layer_one_hop layer w X X' bond sidx nidx a :
  eval_mode layer →
  rowwise_gate (MessageLayer.pooling layer) →
  same_shape X X' →
  X !! a = X' !! a →
  (∀ j b, sidx !! j = Some a → nidx !! j = Some b → X !! b = X' !! b) →
  row_of a (MessageLayer.forward layer w X bond sidx nidx) =
  row_of a (MessageLayer.forward layer w X' bond sidx nidx).
Proof.
  intros Heval Hgate Hshape Ha Hnbr.
  destruct (MessageLayer.forward layer w X bond sidx nidx) as [Y|e] eqn:H1.
  - destruct (MessageLayer_forward_one_hop _ _ _ _ _ _ _ _ _
                Heval Hgate H1 Hshape Ha Hnbr) as (Y' & -> & Hrow).
    simpl. by rewrite Hrow.
  - destruct (MessageLayer.forward layer w X' bond sidx nidx) as [Y'|e'] eqn:H2;
      [|done].
    destruct (MessageLayer_forward_one_hop _ _ _ _ _ _ _ _ _
                Heval Hgate H2 (same_shape_sym _ _ Hshape) (eq_sym Ha))
      as (Y & HY & _); [|congruence].
    intros j b Hj Hb. symmetry. by apply (Hnbr j b).
Qed.

Lemma message_layer_one_hop_witness :
  let bn := {| BatchNorm1d.num_features := 1; BatchNorm1d.bn_eps := 1e-5;
               BatchNorm1d.weight := [1]; BatchNorm1d.bias := [0];
               BatchNorm1d.running_mean := [0]; BatchNorm1d.running_var := [1];
               BatchNorm1d.training := false |} in
  let lin := {| Linear.in_features := 3; Linear.out_features := 1;
                Linear.weight := [[1; 0; 0]]; Linear.bias := [0] |} in
  let layer :=
    {| MessageLayer.atom_fea_len := 1; MessageLayer.nbr_fea_len := 1;
       MessageLayer.filter_msg := lin; MessageLayer.filter_bn := bn;
       MessageLayer.core_msg := lin; MessageLayer.core_bn := bn;
       MessageLayer.pooling :=
         {| GlobalAttention.gate_nn := λ x, (λ _ : vec, 0) <$> x |} |} in
  row_of 0 (MessageLayer.forward layer [1; 1; 1] [[1]; [2]; [3]]
              [[0]; [0]; [0]] [0; 1; 2]%nat [1; 2; 1]%nat) =
  row_of 0 (MessageLayer.forward layer [1; 1; 1] [[1]; [2]; [30]]
              [[0]; [0]; [0]] [0; 1; 2]%nat [1; 2; 1]%nat).
Proof.
  intros bn lin layer.
  apply (message_layer_one_hop layer [1; 1; 1] [[1]; [2]; [3]] [[1]; [2]; [30]]
           [[0]; [0]; [0]] [0; 1; 2]%nat [1; 2; 1]%nat 0).
  - split; reflexivity.
  - exists (λ _, 0). reflexivity.
  - repeat constructor.
  - reflexivity.
  - intros [|[|[|j]]] b Hj Hb; simpl in *; simplify_eq; reflexivity.
Defined.

(** X20. The only exceptions of GlobalAttention.forward are AssertionError,
    raised exactly when the gate network returns a number of logits other
    than the number of rows of x, and RuntimeError; in particular the two
    gathers by [index] never run out of bounds. *)
Theorem forward_exceptions self x index w e :
  GlobalAttention.forward self x index w = Raise e →
  (e = AssertionError ∧ length (GlobalAttention.gate_nn self x) ≠ length x) ∨
  (e = RuntimeError ∧ length (GlobalAttention.gate_nn self x) = length x).
Proof.
  intros H.
  destruct (decide (length (GlobalAttention.gate_nn self x) = length x)) as [Hg|Hg].
  - right. split; [|done].
    destruct (decide (length index = length x)) as [Hi|Hi].
    + rewrite forward_expand in H by done.
      destruct (expand_weights (length x) w); congruence.
    + unfold GlobalAttention.forward in H. rewrite Hg, Nat.eqb_refl in H.
      cbn [negb] in H. unfold scatter_max in H.
      rewrite scatter_length_mismatch in H by congruence.
      by injection H as <-.
  - left. split; [|done]. unfold GlobalAttention.forward in H.
    destruct (Nat.eqb_spec (length (GlobalAttention.gate_nn self x)) (length x));
      [done|]. by injection H as <-.
Qed.

Lemma forward_exceptions_witness :
  (AssertionError = AssertionError ∧ length [0] ≠ length [[1]; [2]]) ∨
  (AssertionError = RuntimeError ∧ length [0] = length [[1]; [2]]).
Proof.
  exact (forward_exceptions {| GlobalAttention.gate_nn := λ _, [0] |}
           [[1]; [2]] [0; 0]%nat [1; 1] AssertionError eq_refl).
Defined.
